(** * The PyTorch 1.0 tutorial notebook: broadcasting, gradient descent
      on a linear classifier, and the error-rate metric.

    The notebook [Pytorch1.0Tutorial.ipynb] drives an external numeric
    engine.  The engine's scalar arithmetic is kept abstract (class
    [Engine], no algebraic law is assumed, so every statement also holds
    for rounding arithmetic); the control flow of the notebook cells is
    embedded as written, with Python's exceptions and the notebook's
    global variables made explicit. *)

From Stdlib Require Import QArith Qround.
From stdpp Require Import base option list.

Set Default Proof Using "Type".
Set Warnings "-abstract-large-number".
Open Scope nat_scope.

(** ** The numeric engine's scalars *)

Class Engine := {
  R : Type;
  zero : R;
  one : R;
  add : R → R → R;
  sub : R → R → R;
  mul : R → R → R;
  div : R → R → R;
  neg : R → R;
  exp : R → R;
  log : R → R;
  ltb : R → R → bool;
  of_nat : nat → R;
  (* the engine's random generator: [torch.random] *)
  rng : Type;
  manual_seed : Z → rng;
  uniform : R → R → rng → R * rng
}.

(** ** Shapes and broadcasting (notebook cells 9 to 11) *)

Module Shape.

(** Cell 9: "When iterating over the dimension sizes, starting at the
    trailing dimension, the dimension sizes must either be equal, one
    of them is 1, or one of them does not exist."  The two arguments
    are the shapes read from the trailing dimension. *)
Fixpoint broadcast_trailing (s1 s2 : list nat) : option (list nat) :=
  match s1, s2 with
  | [], s => Some s
  | s, [] => Some s
  | d1 :: r1, d2 :: r2 =>
      if d1 =? d2 then cons d1 <$> broadcast_trailing r1 r2
      else if d1 =? 1 then cons d2 <$> broadcast_trailing r1 r2
      else if d2 =? 1 then cons d1 <$> broadcast_trailing r1 r2
      else None
  end.

Definition broadcast (s1 s2 : list nat) : option (list nat) :=
  reverse <$> broadcast_trailing (reverse s1) (reverse s2).

Definition numel (s : list nat) : nat := foldr Nat.mul 1 s.

(** Row-major multi-index of the flat position [k] in shape [s]. *)
Fixpoint unravel_trailing (rs : list nat) (k : nat) : list nat :=
  match rs with
  | [] => []
  | d :: r => (k mod d) :: unravel_trailing r (k / d)
  end.

Definition unravel (s : list nat) (k : nat) : list nat :=
  reverse (unravel_trailing (reverse s) k).

(** Flat position in an operand of shape [s] of the result's
    multi-index [idx]: the operand is aligned on the trailing
    dimension, and a dimension of length 1 is read at 0. *)
Fixpoint ravel_trailing (stride : nat) (rs ridx : list nat) : nat :=
  match rs, ridx with
  | d :: r, i :: ri =>
      (if d =? 1 then 0 else i) * stride + ravel_trailing (stride * d) r ri
  | _, _ => 0
  end.

Definition ravel (s idx : list nat) : nat :=
  ravel_trailing 1 (reverse s) (reverse idx).

End Shape.

(** ** Tensors: a shape and row-major data *)

Section Tensors.
Context `{E : Engine}.

Record tensor := Tensor { shape : list nat; data : list R }.

Definition full (s : list nat) (v : R) : tensor :=
  Tensor s (replicate (Shape.numel s) v).

(** [torch.ones(...)] and [torch.zeros(...)]. *)
Definition ones (s : list nat) : tensor := full s one.
Definition zeros (s : list nat) : tensor := full s zero.

Definition item (t : tensor) (k : nat) : R := default zero (data t !! k).

(** Elementwise binary operation with broadcasting; [None] is the
    engine's size-mismatch error. *)
Definition broadcast_op (f : R → R → R) (a b : tensor) : option tensor :=
  s ← Shape.broadcast (shape a) (shape b);
  Some (Tensor s
    ((λ k, let idx := Shape.unravel s k in
           f (item a (Shape.ravel (shape a) idx))
             (item b (Shape.ravel (shape b) idx)))
       <$> seq 0 (Shape.numel s))).

Definition tensor_add : tensor → tensor → option tensor := broadcast_op add.

(** [torch.mm(a, b)]: both operands are matrices and the inner
    dimensions agree, else the engine raises. *)
Definition dot (a b : tensor) (k m i j : nat) : R :=
  foldl (λ acc l, add acc (mul (item a (i * k + l)) (item b (l * m + j))))
        zero (seq 0 k).

Definition mm (a b : tensor) : option tensor :=
  match shape a, shape b with
  | [n; k], [k'; m] =>
      if k =? k'
      then Some (Tensor [n; m]
                   (i ← seq 0 n; (λ j, dot a b k m i j) <$> seq 0 m))
      else None
  | _, _ => None
  end.

(** The rows of a matrix. *)
Definition rows (t : tensor) : option (list (list R)) :=
  match shape t with
  | [n; c] => Some ((λ i, take c (drop (i * c) (data t))) <$> seq 0 n)
  | _ => None
  end.

(** [t.argmax(1)]: per row, the position of the largest entry (the
    first one among equals); a long tensor.  Reducing a dimension of
    length 0 is an engine error, with or without rows. *)
Fixpoint argmax_from (best : R) (bi i : nat) (l : list R) : nat :=
  match l with
  | [] => bi
  | v :: r =>
      if ltb best v then argmax_from v i (S i) r
      else argmax_from best bi (S i) r
  end.

Definition argmax_row (l : list R) : option Z :=
  match l with
  | [] => None
  | v :: r => Some (Z.of_nat (argmax_from v 0 1 r))
  end.

Definition argmax1 (t : tensor) : option (list Z) :=
  match shape t with
  | [_; 0] => None
  | _ => rs ← rows t; mapM argmax_row rs
  end.

End Tensors.

(** ** Objects updated in place through references

    The Parameters are objects shared by the model and the optimizer;
    the optimizer holds references to them (positions in the list of
    all Parameters) and updates them in place, one reference after the
    other: [for p in params: p := f p]. *)

Definition update_all {A} (f : A → A) (refs : list nat) (l : list A) : list A :=
  foldl (λ acc i, alter f i acc) l refs.

(** ** Python exceptions *)

Inductive exn := RuntimeError | ValueError | ZeroDivisionError | NameError.

Inductive result (A : Type) := Ok (a : A) | Raise (e : exn).
Arguments Ok {A} a.
Arguments Raise {A} e.

Instance result_ret : MRet result := λ A a, Ok a.
Instance result_bind : MBind result := λ A B f r,
  match r with Ok a => f a | Raise e => Raise e end.

Definition or_raise {A} (e : exn) (o : option A) : result A :=
  match o with Some a => Ok a | None => Raise e end.

(** ** Parameters, loss and metric *)

(** The value of a float computed by the metric: a rational, or the
    engine's [nan]. *)
Inductive fnum := NaN | Fin (q : Q).

Section Autograd.
Context `{E : Engine}.

(** A learnable tensor with its gradient accumulator ([p.data] and
    [p.grad]).  The accumulator starts at zero. *)
Record Param := mkParam { value : tensor; grad : tensor }.

(** [torch.nn.Parameter(t)] *)
Definition nn_Parameter (t : tensor) : Param := mkParam t (zeros (shape t)).

Definition values (ps : list Param) : list tensor := value <$> ps.

(** [g.zero_()], in place. *)
Definition zero_ (g : tensor) : tensor :=
  Tensor (shape g) ((λ _, zero) <$> data g).

Definition all_zero (t : tensor) : Prop := ∀ v, v ∈ data t → v = zero.

(** [a.add_(b)] on tensors of one shape, in place. *)
Definition add_ (a b : tensor) : tensor :=
  Tensor (shape a) (zip_with add (data a) (data b)).

(** Cell 24: "gradients can be zeroed out"; cell 32: [zero_grad] is
    "equivalent to: for w in model.parameters(): w.grad.data.zero_()".
    The optimizer walks the Parameters it holds references to. *)
Definition reset_grad (p : Param) : Param := mkParam (value p) (zero_ (grad p)).

Definition zero_grad (refs : list nat) (ps : list Param) : list Param :=
  update_all reset_grad refs ps.

(** Cell 22: "this is additive! Calling backward again [...] will add
    to grad".  [gs] holds the gradient of the loss with respect to
    each Parameter, by position. *)
Definition accumulate (gs : list tensor) (ps : list Param) : list Param :=
  imap (λ i p, match gs !! i with
               | Some g => mkParam (value p) (add_ (grad p) g)
               | None => p
               end) ps.

(** *** Cross-entropy *)

Definition logsumexp (row : list R) : R :=
  log (foldl (λ acc v, add acc (exp v)) zero row).

Definition log_softmax_row (row : list R) : list R :=
  (λ v, sub v (logsumexp row)) <$> row.

(** [log_softmax(t, 1)], as the list of its rows. *)
Definition log_softmax (t : tensor) : option (list (list R)) :=
  fmap (M := list) log_softmax_row <$> rows t.

Definition ignore_index : Z := (-100)%Z.

(** The log-probability a row gives to its target. *)
Definition pick (lp : list R) (l : Z) : R := default zero (lp !! Z.to_nat l).

(** Sum of the picked log-probabilities and number of examples that
    count; a target outside the classes raises, the ignore marker is
    skipped. *)
Fixpoint nll_acc (c : nat) (acc : R) (cnt : nat)
    (lps : list (list R)) (y : list Z) : result (R * nat) :=
  match lps, y with
  | lp :: lps', l :: y' =>
      if (l =? ignore_index)%Z then nll_acc c acc cnt lps' y'
      else if ((0 <=? l)%Z && (l <? Z.of_nat c)%Z)%bool
      then nll_acc c (add acc (pick lp l)) (S cnt) lps' y'
      else Raise RuntimeError
  | _, _ => Ok (acc, cnt)
  end.

(** Modelled from the spec: [torch.nn.functional.cross_entropy] belongs
    to the external engine and is absent from the notebook.  The value
    is "-mean(log_softmax(prediction)[i, labels[i]])"; the checks are
    the engine's: logits must be a matrix, the batch sizes must agree
    (ValueError), every target must be a class or the ignore marker
    (RuntimeError). *)
Definition cross_entropy (input : tensor) (target : list Z) : result R :=
  match shape input with
  | [n; c] =>
      if n =? length target
      then lps ← or_raise RuntimeError (log_softmax input);
           '(s, k) ← nll_acc c zero 0 lps target;
           Ok (neg (div s (of_nat k)))
      else Raise ValueError
  | _ => Raise ValueError
  end.

(** The spec's formula, read literally. *)
Definition mean (l : list R) : R := div (foldl add zero l) (of_nat (length l)).

Definition cross_entropy_spec (prediction : tensor) (labels : list Z) : R :=
  let lsm i j := default zero (lps ← log_softmax prediction; lp ← lps !! i; lp !! j) in
  let examples := match shape prediction with n :: _ => n | [] => 0 end in
  neg (mean ((λ i, lsm i (Z.to_nat (default 0%Z (labels !! i)))) <$> seq 0 examples)).

(** §3 of the spec: "row counts of features and labels match; label
    values are within range". *)
Definition valid_labels (n c : nat) (labels : list Z) : Prop :=
  length labels = n ∧ ∀ l, l ∈ labels → (0 ≤ l < Z.of_nat c)%Z.

(** *** The error rate (cell 30, after the loop) *)

(** [a != b] on long vectors, with broadcasting of a length-1 side. *)
Definition ne (a b : list Z) : option (list bool) :=
  let f u v := negb (u =? v)%Z in
  if length a =? length b then Some (zip_with f a b)
  else match a, b with
       | [u], _ => Some (f u <$> b)
       | _, [v] => Some ((λ u, f u v) <$> a)
       | _, _ => None
       end.

(** [mask.float().mean()]: the mask holds 0.0 and 1.0; the mean of an
    empty tensor is nan. *)
Definition to_float (mask : list bool) : list Q :=
  (λ m : bool, if m then 1%Q else 0%Q) <$> mask.

Definition float_mean (l : list Q) : fnum :=
  match l with
  | [] => NaN
  | _ => Fin (Qred (foldr Qplus 0%Q l / inject_Z (Z.of_nat (length l))))
  end.

Definition error_rate (prediction : tensor) (labels : list Z) : result fnum :=
  class_predictions ← or_raise RuntimeError (argmax1 prediction);
  mask ← or_raise RuntimeError (ne class_predictions labels);
  Ok (float_mean (to_float mask)).

End Autograd.

(** ** Models and optimizers *)

Section Interfaces.
Context `{E : Engine}.

(** A model: its Parameters' initial values, its forward pass on the
    Parameters' values, and the gradient of
    [cross_entropy (forward values x) y] with respect to each
    Parameter, which the engine's reverse-mode differentiation
    supplies.  Nothing is assumed about [gradient]. *)
Record Model := {
  init : rng → list tensor * rng;
  forward : list tensor → tensor → option tensor;
  gradient : list tensor → tensor → list Z → list tensor
}.

(** An optimizer: references (positions) to the Parameters it
    updates, its own state, and [step]. *)
Record Optimizer := {
  opt_state : Type;
  param_refs : list nat;
  opt_init : opt_state;
  step : opt_state → list Param → opt_state * list Param
}.

(** *** The linear classifier of cell 30 *)

(** [yhat = torch.mm(x, W) + b], with [W] and [b] the first and
    second Parameter. *)
Definition linear_forward (vs : list tensor) (x : tensor) : option tensor :=
  W ← vs !! 0; b ← vs !! 1; xw ← mm x W; tensor_add xw b.

(** [t.uniform_(lo, hi)]: every entry is redrawn, in order. *)
Fixpoint draws (k : nat) (lo hi : R) (g : rng) : list R * rng :=
  match k with
  | 0 => ([], g)
  | S k' => let '(v, g1) := uniform lo hi g in
            let '(vs, g2) := draws k' lo hi g1 in
            (v :: vs, g2)
  end.

Definition uniform_ (t : tensor) (lo hi : R) (g : rng) : tensor * rng :=
  let '(vs, g') := draws (length (data t)) lo hi g in (Tensor (shape t) vs, g').

(** A decimal literal such as [0.01]. *)
Definition lit (num den : nat) : R := div (of_nat num) (of_nat den).

(** [W = Parameter(zeros((4, 3))); W.data.uniform_(-0.01, 0.01);
    b = Parameter(zeros((3,)))] *)
Definition linear_init (g : rng) : list tensor * rng :=
  let '(W, g') := uniform_ (zeros [4; 3]) (neg (lit 1 100)) (lit 1 100) g in
  ([W; zeros [3]], g').

(** *** Plain gradient descent *)

(** Modelled from the spec: [torch.optim.SGD.step] belongs to the
    external engine and is absent from the notebook.  "plain gradient
    descent: value -= lr * grad", for each Parameter of the
    optimizer's list in turn. *)
Definition sgd_update (lr : R) (p : Param) : Param :=
  mkParam (Tensor (shape (value p))
             (zip_with (λ v g, sub v (mul lr g)) (data (value p)) (data (grad p))))
          (grad p).

Definition sgd_step (lr : R) (refs : list nat) (ps : list Param) : list Param :=
  update_all (sgd_update lr) refs ps.

(** [torch.optim.SGD(params, lr=lr)] *)
Definition SGD (refs : list nat) (lr : R) : Optimizer := {|
  opt_state := unit;
  param_refs := refs;
  opt_init := tt;
  step := λ st ps, (st, sgd_step lr refs ps)
|}.

End Interfaces.

(** ** The notebook's state and the training loop *)

Section Notebook.
Context `{E : Engine}.
Variable m : Model.
Variable o : Optimizer.

(** The global variables the training cells read and write. *)
Record globals := Globals {
  generator : rng;             (* torch's global random generator *)
  params : list Param;         (* the Parameter objects *)
  ostate : opt_state o;        (* the optimizer object *)
  yhat : option tensor;        (* [None]: the name is unbound *)
  loss : option R;
  stdout : list (nat * R)      (* what [print(epoch, loss.item())] wrote *)
}.

(** Python statements: the state survives a raised exception. *)
Definition py (A : Type) : Type := globals → result A * globals.

#[export] Instance py_ret : MRet py := λ A a g, (Ok a, g).
#[export] Instance py_bind : MBind py := λ A B f c g,
  match c g with
  | (Ok a, g') => f a g'
  | (Raise e, g') => (Raise e, g')
  end.

Definition lift {A} (r : result A) : py A := λ g, (r, g).
Definition get {A} (f : globals → A) : py A := λ g, (Ok (f g), g).
Definition modify (f : globals → globals) : py unit := λ g, (Ok tt, f g).

Definition set_generator v g :=
  Globals v (params g) (ostate g) (yhat g) (loss g) (stdout g).
Definition set_params v g :=
  Globals (generator g) v (ostate g) (yhat g) (loss g) (stdout g).
Definition set_ostate v g :=
  Globals (generator g) (params g) v (yhat g) (loss g) (stdout g).
Definition set_yhat v g :=
  Globals (generator g) (params g) (ostate g) (Some v) (loss g) (stdout g).
Definition set_loss v g :=
  Globals (generator g) (params g) (ostate g) (yhat g) (Some v) (stdout g).
Definition print v g :=
  Globals (generator g) (params g) (ostate g) (yhat g) (loss g) (stdout g ++ [v]).

(** [optimizer.zero_grad()] *)
Definition reset (g : globals) : globals :=
  set_params (zero_grad (param_refs o) (params g)) g.

(** [loss.backward()] *)
Definition backward (x : tensor) (y : list Z) (g : globals) : globals :=
  set_params (accumulate (gradient m (values (params g)) x y) (params g)) g.

(** [optimizer.step()] *)
Definition optimizer_step (g : globals) : globals :=
  let '(st, ps) := step o (ostate g) (params g) in
  set_ostate st (set_params ps g).

(** Python's [a % b] on naturals. *)
Definition py_mod (a b : nat) : result nat :=
  if b =? 0 then Raise ZeroDivisionError else Ok (a mod b).

(** [if epoch and not epoch % logEvery: print(epoch, loss.item())];
    the cells write the interval as a literal, 100 and 500. *)
Definition log_line (logEvery epoch : nat) : py unit :=
  if epoch =? 0 then mret tt
  else r ← lift (py_mod epoch logEvery);
       if r =? 0
       then l ← get loss; l ← lift (or_raise NameError l); modify (print (epoch, l))
       else mret tt.

(** The body of [for epoch in range(...)], cells 30 and 32:
    [optimizer.zero_grad()], then the statements that follow it. *)
Definition after_reset (x : tensor) (y : list Z) (logEvery epoch : nat) : py unit :=
  vs ← get (λ g, values (params g));
  yh ← lift (or_raise RuntimeError (forward m vs x));
  modify (set_yhat yh);;
  l ← lift (cross_entropy yh y);
  modify (set_loss l);;
  modify (backward x y);;
  modify optimizer_step;;
  log_line logEvery epoch.

Definition iteration (x : tensor) (y : list Z) (logEvery epoch : nat) : py unit :=
  modify reset;; after_reset x y logEvery epoch.

Fixpoint for_range (body : nat → py unit) (start count : nat) : py unit :=
  match count with
  | 0 => mret tt
  | S count' => body start;; for_range body (S start) count'
  end.

(** [for epoch in range(numIterations): ...] *)
Definition train (x : tensor) (y : list Z) (logEvery numIterations : nat) : py unit :=
  for_range (iteration x y logEvery) 0 numIterations.

(** §4.2 of the spec: the evaluation routine, which is the code of
    cell 30 for the test split: [yhat = forward(x);
    (yhat.argmax(1) != y).float().mean()]. *)
Definition classificationErrorRate (ps : list Param) (x : tensor) (y : list Z)
    : result fnum :=
  yh ← or_raise RuntimeError (forward m (values ps) x);
  error_rate yh y.

(** The code after the loop: the training error is computed from the
    variable [yhat] the loop left behind; for the test error [yhat]
    is recomputed. *)
Definition report (trainY : list Z) (testX : tensor) (testY : list Z)
    : py (fnum * fnum) :=
  yh ← get yhat;
  yh ← lift (or_raise NameError yh);
  train_error_rate ← lift (error_rate yh trainY);
  vs ← get (λ g, values (params g));
  yh ← lift (or_raise RuntimeError (forward m vs testX));
  modify (set_yhat yh);;
  test_error_rate ← lift (error_rate yh testY);
  mret (train_error_rate, test_error_rate).

(** Seeding (cell 28, top of cell 32), creation of the Parameters and
    of the optimizer, training, report. *)
Definition create (seed : Z) : py unit :=
  modify (set_generator (manual_seed seed));;
  gen ← get generator;
  let '(vs, gen') := init m gen in
  modify (set_generator gen');;
  modify (set_params (nn_Parameter <$> vs));;
  modify (set_ostate (opt_init o)).

Definition cell (seed : Z) (logEvery numIterations : nat)
    (trainX : tensor) (trainY : list Z) (testX : tensor) (testY : list Z)
    : py (fnum * fnum) :=
  create seed;;
  train trainX trainY logEvery numIterations;;
  report trainY testX testY.

(** §4.1 of the spec: [run(model, optimizer, features, labels,
    numIterations, logEvery) -> finalLoss], on Parameters created
    beforehand; no [loss] exists before the loop. *)
Definition start (ps : list Param) (gen : rng) : globals :=
  Globals gen ps (opt_init o) None None [].

Definition run (ps : list Param) (gen : rng) (x : tensor) (y : list Z)
    (numIterations logEvery : nat) : result unit * globals :=
  train x y logEvery numIterations (start ps gen).

End Notebook.

(** *** What reverse-mode differentiation yields for cell 30

    The derivative of [cross_entropy (mm x W + b) y] with respect to
    [W] and [b], written with the engine's arithmetic: the derivative
    with respect to the logits is [(softmax - onehot) / count] on the
    rows that count. *)

Section LinearClassifier.
Context `{E : Engine}.

Definition dlogits (pred : tensor) (y : list Z) : list (list R) :=
  let count := length (filter (λ l, l ≠ ignore_index) y) in
  match log_softmax pred with
  | None => []
  | Some lps =>
      zip_with (λ lp l,
        imap (λ j v,
          if (l =? ignore_index)%Z then zero
          else div (sub (exp v) (if (Z.of_nat j =? l)%Z then one else zero))
                   (of_nat count)) lp) lps y
  end.

Definition linear_gradient (vs : list tensor) (x : tensor) (y : list Z) : list tensor :=
  match linear_forward vs x, shape x with
  | Some pred, [n; k] =>
      let d := dlogits pred y in
      let c := match shape pred with [_; c] => c | _ => 0 end in
      let dW l j :=
        foldl (λ acc '(i, di), add acc (mul (item x (i * k + l)) (default zero (di !! j))))
              zero (imap pair d) in
      let db j := foldl (λ acc di, add acc (default zero (di !! j))) zero d in
      [Tensor [k; c] (l ← seq 0 k; dW l <$> seq 0 c); Tensor [c] (db <$> seq 0 c)]
  | _, _ => []
  end.

Definition linear : Model := {|
  init := linear_init;
  forward := linear_forward;
  gradient := linear_gradient
|}.

(** Cell 30 (with the seeding of cell 28):
    [optimizer = torch.optim.SGD([W, b], lr=0.01)],
    [for epoch in range(1001)], a line every 100 epochs. *)
Definition cell30_optimizer : Optimizer := SGD [0; 1] (lit 1 100).

Definition cell30 := cell linear cell30_optimizer 1 100 1001.

End LinearClassifier.

(** *** The network of cell 32

    [nn.Sequential(nn.Linear(4, 16), nn.ReLU(), nn.Linear(16, 16),
    nn.ReLU(), nn.Linear(16, 3))] trained with [torch.optim.Adam].
    The layers' forward passes are written out; the initialisation of
    the layers, the gradient and Adam's update rule stay the engine's. *)

Section Network.
Context `{E : Engine}.

Definition transpose (t : tensor) : option tensor :=
  match shape t with
  | [r; c] => Some (Tensor [c; r] (j ← seq 0 c; (λ i, item t (i * c + j)) <$> seq 0 r))
  | _ => None
  end.

(** A layer of [nn.Sequential]: [Linear w b] reads its weight and bias
    at positions [w] and [b] of [model.parameters()]. *)
Inductive layer := Linear (w b : nat) | ReLU.

Definition relu (t : tensor) : tensor :=
  Tensor (shape t) ((λ v, if ltb zero v then v else zero) <$> data t).

(** [nn.Linear]: [x.matmul(W.t()) + b].  The input has any rank from
    1 on; its last dimension is the one multiplied through and the
    leading dimensions are kept.  The data is row-major, so the input
    is read as the matrix with one row per leading multi-index. *)
Definition linear_transform (W bias x : tensor) : option tensor :=
  match reverse (shape x) with
  | [] => None
  | k :: rlead =>
      let lead := reverse rlead in
      Wt ← transpose W;
      xw ← mm (Tensor [Shape.numel lead; k] (data x)) Wt;
      y ← tensor_add xw bias;
      Some (Tensor (lead ++ drop 1 (shape y)) (data y))
  end.

Definition layer_forward (vs : list tensor) (l : layer) (x : tensor) : option tensor :=
  match l with
  | Linear w b => W ← vs !! w; bias ← vs !! b; linear_transform W bias x
  | ReLU => Some (relu x)
  end.

Definition sequential_forward (layers : list layer) (vs : list tensor) (x : tensor)
    : option tensor :=
  foldl (λ acc l, acc ≫= layer_forward vs l) (Some x) layers.

Definition cell32_layers : list layer :=
  [Linear 0 1; ReLU; Linear 2 3; ReLU; Linear 4 5].

Definition cell32_model
    (initialise : rng → list tensor * rng)
    (autograd : list tensor → tensor → list Z → list tensor) : Model := {|
  init := initialise;
  forward := sequential_forward cell32_layers;
  gradient := autograd
|}.

(** [for epoch in range(5001)], a line every 500 epochs, seed 1;
    [adam] is [torch.optim.Adam(model.parameters(), ...)]. *)
Definition cell32 initialise autograd (adam : Optimizer) :=
  cell (cell32_model initialise autograd) adam 1 500 5001.

End Network.

(** ** An engine to compute with

    Fixed-point arithmetic: every operation rounds its exact rational
    result down to a multiple of 2^-24; [exp] and [log] are polynomial
    stand-ins and the generator is linear congruential.  It serves to
    run the notebook's code on small inputs; dividing by zero gives 0
    here. *)

Module Rational.

Definition round (q : Q) : Q := Qred (Qfloor (q * 16777216) # 16777216).

Definition qexp (v : Q) : Q := round (1 + v + v * v / 2 + v * v * v / 6).

Definition qlog (v : Q) : Q :=
  let t := round ((v - 1) / (v + 1)) in
  round (2 * (t + t * t * t / 3 + t * t * t * t * t / 5)).

Definition lcg (s : Z) : Z := ((1103515245 * s + 12345) mod 2147483648)%Z.

Definition quniform (lo hi : Q) (s : Z) : Q * Z :=
  let s' := lcg s in
  (round (lo + (hi - lo) * ((s' / 65536) mod 1024 # 1024)), s').

#[export] Instance engine : Engine := {|
  R := Q;
  zero := 0%Q;
  one := 1%Q;
  add := λ a b, round (a + b);
  sub := λ a b, round (a - b);
  mul := λ a b, round (a * b);
  div := λ a b, round (a / b);
  neg := λ a, round (- a);
  exp := qexp;
  log := qlog;
  ltb := λ a b, negb (Qle_bool b a);
  of_nat := λ n, inject_Z (Z.of_nat n);
  rng := Z;
  manual_seed := λ s, s;
  uniform := quniform
|}.

(** Small inputs. *)
Definition matrix (r c : nat) (l : list Q) : tensor := @Tensor engine [r; c] l.

(** A notebook in which nothing has run yet. *)
Definition fresh : globals cell30_optimizer :=
  Globals cell30_optimizer 0%Z [] tt None None [].

(** Cell 30 right after the seeding and the creation of [W], [b] and
    the optimizer. *)
Definition seeded : globals cell30_optimizer :=
  let '(vs, gen) := linear_init (manual_seed 1) in
  Globals cell30_optimizer gen (nn_Parameter <$> vs) tt None None [].

(** Two examples with four features, of classes 2 and 1. *)
Definition two_rows : tensor := matrix 2 4 [2; 0; 0; 0; 1; 1; 0; 3]%Q.
Definition two_labels : list Z := [2; 1]%Z.

(** Their logits under the initial Parameters. *)
Definition first_logits : tensor :=
  default (zeros []) (linear_forward (values (params _ seeded)) two_rows).

(** An empty dataset. *)
Definition no_rows : tensor := matrix 0 4 [].

End Rational.

(** ** Vocabulary of the statements *)

Section Vocabulary.
Context `{E : Engine} (m : Model) (o : Optimizer).

(** [g'] is [g] with other contents in the gradient accumulators. *)
Definition stale_variant (g g' : globals o) : Prop :=
  generator o g' = generator o g ∧ ostate o g' = ostate o g
  ∧ yhat o g' = yhat o g ∧ loss o g' = loss o g ∧ stdout o g' = stdout o g
  ∧ Forall2 (λ p p', value p' = value p
                     ∧ shape (grad p') = shape (grad p)
                     ∧ length (data (grad p')) = length (data (grad p)))
            (params o g) (params o g').

(** The spec's logging rule: "logEvery > 0 and iteration count is a
    positive multiple of logEvery". *)
Definition log_due (logEvery epoch : nat) : bool :=
  (0 <? logEvery) && (0 <? epoch) && (epoch mod logEvery =? 0).

(** Two states hold the same generator, Parameters and optimizer. *)
Definition same_objects (g1 g2 : globals o) : Prop :=
  generator o g1 = generator o g2 ∧ params o g1 = params o g2
  ∧ ostate o g1 = ostate o g2.

(** The state once the seed is set and the Parameters and the
    optimizer are created. *)
Definition created (seed : Z) (g : globals o) : globals o :=
  let '(vs, gen) := init m (manual_seed seed) in
  Globals o gen (nn_Parameter <$> vs) (opt_init o) (yhat o g) (loss o g) (stdout o g).

(** The Parameters of a linear classifier with [k] inputs and [c]
    classes: a weight matrix and a bias vector. *)
Definition linear_shapes (k c : nat) (ps : list Param) : Prop :=
  ∃ W b, ps = [W; b] ∧ shape (value W) = [k; c] ∧ shape (value b) = [c].

(** A tensor whose data fills its shape. *)
Definition well_formed (t : tensor) : Prop := length (data t) = Shape.numel (shape t).

(** The spec's error rate: "the fraction of rows i for which the
    arg-max class index of [...] row i differs from labels[i]". *)
Definition mismatch (prediction : tensor) (labels : list Z) (i : nat) : Prop :=
  (rs ← rows prediction; r ← rs !! i; argmax_row r) ≠ labels !! i.

Definition mismatch_fraction (prediction : tensor) (labels : list Z) : Q :=
  let examples := match shape prediction with n :: _ => n | [] => 0 end in
  inject_Z (Z.of_nat (length (filter (mismatch prediction labels) (seq 0 examples))))
  / inject_Z (Z.of_nat examples).

Definition in_unit_interval (r : result fnum) : Prop :=
  match r with
  | Ok (Fin q) => (0 <= q <= 1)%Q
  | _ => False
  end.

End Vocabulary.

(** ** The rest of the notebook's tensor operations *)

Section Elementwise.
Context `{E : Engine}.

(** Cell 4: [a - b] and [a * b], "elementwise" like [a + b]. *)
Definition tensor_sub : tensor → tensor → option tensor := broadcast_op sub.
Definition tensor_mul : tensor → tensor → option tensor := broadcast_op mul.

(** The entry of [t] at a multi-index. *)
Definition entry (t : tensor) (idx : list nat) : R :=
  item t (Shape.ravel (shape t) idx).

(** Cell 6: [t.reshape(s)]; the data is row-major and stays as it is.
    The element counts must agree. *)
Definition reshape (t : tensor) (s : list nat) : option tensor :=
  if Shape.numel s =? length (data t) then Some (Tensor s (data t)) else None.

(** [torch.arange(n)] and [torch.eye(n, m)]. *)
Definition arange (n : nat) : tensor := Tensor [n] (of_nat <$> seq 0 n).

Definition eye (n m : nat) : tensor :=
  Tensor [n; m] (i ← seq 0 n; (λ j, if i =? j then one else zero) <$> seq 0 m).

End Elementwise.

(** ** Python sequences and numpy arrays (cells 8, 13, 28 and 33) *)

Section Sequences.
Context {A : Type}.

(** A slice bound as Python normalises it: a negative bound counts
    from the end, and the result is clamped to [0, len]; no bound
    raises. *)
Definition slice_bound (len : nat) (i : Z) : nat :=
  if (i <? 0)%Z then Z.to_nat (i + Z.of_nat len) else Z.to_nat i `min` len.

Definition slice_lo (len : nat) (start : option Z) : nat :=
  from_option (slice_bound len) 0 start.

Definition slice_hi (len : nat) (stop : option Z) : nat :=
  from_option (slice_bound len) len stop.

(** [l[start:stop]]; [None] is an omitted bound. *)
Definition py_slice (start stop : option Z) (l : list A) : list A :=
  take (slice_hi (length l) stop - slice_lo (length l) start)
       (drop (slice_lo (length l) start) l).

(** [l[i]]: IndexError ([None]) outside [-len, len). *)
Definition py_index (l : list A) (i : Z) : option A :=
  if (i <? 0)%Z
  then if (- Z.of_nat (length l) <=? i)%Z
       then l !! Z.to_nat (i + Z.of_nat (length l))
       else None
  else l !! Z.to_nat i.

End Sequences.

Section Arrays.
Context `{E : Engine}.

(** The matrix with the given rows of length [c]. *)
Definition from_rows (c : nat) (ls : list (list R)) : tensor :=
  Tensor [length ls; c] (concat ls).

(** The row of a matrix at a position. *)
Definition row (t : tensor) (i : nat) : option (list R) := rs ← rows t; rs !! i.

(** [t[idx]] for a matrix [t] and a list of row indices: "equivalent to
    [t[idx[0]], t[idx[1]], ...]" (cell 13). *)
Definition index_rows (t : tensor) (idx : list Z) : option tensor :=
  match shape t with
  | [n; c] => rs ← rows t; picked ← mapM (py_index rs) idx; Some (from_rows c picked)
  | _ => None
  end.

(** [t[start:stop]] and [t[:, start:stop]] for a matrix [t]. *)
Definition slice_rows (start stop : option Z) (t : tensor) : option tensor :=
  match shape t with
  | [n; c] => rs ← rows t; Some (from_rows c (py_slice start stop rs))
  | _ => None
  end.

Definition slice_cols (start stop : option Z) (t : tensor) : option tensor :=
  match shape t with
  | [n; c] =>
      rs ← rows t;
      Some (from_rows (slice_hi c stop - slice_lo c start) (py_slice start stop <$> rs))
  | _ => None
  end.

(** [t[:, j]] for a matrix [t]: a vector. *)
Definition index_col (t : tensor) (j : Z) : option tensor :=
  match shape t with
  | [n; c] =>
      if ((- Z.of_nat c <=? j)%Z && (j <? Z.of_nat c)%Z)%bool
      then rs ← rows t; col ← mapM (λ r, py_index r j) rs; Some (Tensor [n] col)
      else None
  | _ => None
  end.

(** [len(t)] and [np.arange(n)]. *)
Definition len (t : tensor) : nat := match shape t with n :: _ => n | [] => 0 end.

Definition np_arange (n : nat) : list Z := Z.of_nat <$> seq 0 n.

(** *** Cell 28: the train and test splits

    [shuffle] is [np.random.shuffle] on the current state of numpy's
    generator. *)
Record dataset := Dataset {
  trainX : tensor; trainY : tensor; testX : tensor; testY : tensor
}.

Definition train_split (indices : list Z) : list Z := py_slice None (Some 100%Z) indices.
Definition test_split (indices : list Z) : list Z := py_slice (Some 100%Z) None indices.

Definition cell28 (shuffle : list Z → list Z) (iris : tensor) : option dataset :=
  let indices := shuffle (np_arange (len iris)) in
  train ← index_rows iris (train_split indices);
  trX ← slice_cols None (Some (-1)%Z) train;
  trY ← index_col train (-1);
  test ← index_rows iris (test_split indices);
  teX ← slice_cols None (Some (-1)%Z) test;
  teY ← index_col test (-1);
  Some (Dataset trX trY teX teY).

End Arrays.

Section NetworkShapes.
Context `{E : Engine}.

(** The Parameters of cell 32's network, in the order of
    [model.parameters()]: weight (out, in) and bias (out) of each
    [nn.Linear]. *)
Definition network_shapes (vs : list tensor) : Prop :=
  ∃ W1 b1 W2 b2 W3 b3, vs = [W1; b1; W2; b2; W3; b3]
    ∧ shape W1 = [16; 4] ∧ shape b1 = [16]
    ∧ shape W2 = [16; 16] ∧ shape b2 = [16]
    ∧ shape W3 = [3; 16] ∧ shape b3 = [3].

End NetworkShapes.

(** ** Cell 14: a matrix product by broadcasting *)

Section BroadcastProduct.
Context `{E : Engine}.

(** Indexing with [None] at position [k] adds a dimension of length 1
    there: [d[:, None, :]] is [unsqueeze 1 d] and [d[:, :, None]] is
    [unsqueeze 2 d].  The data stays as it is. *)
Definition unsqueeze (k : nat) (t : tensor) : tensor :=
  Tensor (take k (shape t) ++ 1 :: drop k (shape t)) (data t).

(** [t.sum(dim=0)]: the slices along the first dimension are added
    up, from zero and in order, like the inner products of [mm]. *)
Definition sum_dim0 (t : tensor) : option tensor :=
  match shape t with
  | [] => None
  | n :: rest =>
      Some (Tensor rest
              ((λ j, foldl (λ acc i, add acc (item t (i * Shape.numel rest + j)))
                           zero (seq 0 n))
                 <$> seq 0 (Shape.numel rest)))
  end.

(** [A = (d[:, None, :] * d.transpose(0, 1)[:, :, None]).sum(dim=0)]
    and [B = torch.mm(d, d)]. *)
Definition cell14_A (d : tensor) : option tensor :=
  dT ← transpose d;
  product ← tensor_mul (unsqueeze 1 d) (unsqueeze 2 dT);
  sum_dim0 product.

Definition cell14_B (d : tensor) : option tensor := mm d d.

End BroadcastProduct.

(** ** Small inputs for the rest of the notebook, on the fixed-point engine *)

Module Samples.

(** Cell 4: [a = torch.tensor([1, 2, 3])], [b = torch.tensor([4, 5, 6])]. *)
Definition vec_a : tensor := @Tensor Rational.engine [3] [1; 2; 3]%Q.
Definition vec_b : tensor := @Tensor Rational.engine [3] [4; 5; 6]%Q.

(** Cell 6: [d = torch.arange(9).reshape((3, 3))]. *)
Definition d : tensor := @Tensor Rational.engine [3; 3] [0; 1; 2; 3; 4; 5; 6; 7; 8]%Q.

(** Cell 13: [array = torch.arange(7*3).reshape((7,3))]. *)
Definition array : tensor :=
  @Tensor Rational.engine [7; 3] ((λ k, inject_Z (Z.of_nat k)) <$> seq 0 21).

(** Three rows of a data file: two features and the class. *)
Definition iris : tensor :=
  @Tensor Rational.engine [3; 3] [5; 3; 0; 7; 3; 1; 6; 3; 2]%Q.

(** A data file without columns. *)
Definition no_columns : tensor := @Tensor Rational.engine [3; 0] [].

(** One Parameter with an accumulator at zero, and two gradients. *)
Definition one_parameter : list Param :=
  [@mkParam Rational.engine (@Tensor Rational.engine [1] [1%Q])
                            (@Tensor Rational.engine [1] [0%Q])].
Definition first_gradient : list tensor := [@Tensor Rational.engine [1] [2%Q]].
Definition second_gradient : list tensor := [@Tensor Rational.engine [1] [3%Q]].

(** Parameters of cell 32's network, all at zero. *)
Definition network_parameters : list tensor :=
  @zeros Rational.engine <$> [[16; 4]; [16]; [16; 16]; [16]; [3; 16]; [3]].

End Samples.

(** * Properties *)

(** ** Broadcasting *)

Lemma broadcast_trailing_nil_r (s : list nat) :
  Shape.broadcast_trailing s [] = Some s.
Proof. by destruct s. Qed.

Lemma broadcast_trailing_pad (r1 r2 : list nat) :
  length r2 < length r1 →
  Shape.broadcast_trailing r1 (r2 ++ [1]) = Shape.broadcast_trailing r1 r2.
Proof.
  revert r2. induction r1 as [|d1 r1 IH]; intros r2 Hlen; simpl in Hlen; [lia|].
  destruct r2 as [|d2 r2]; simpl.
  - rewrite broadcast_trailing_nil_r.
    destruct (d1 =? 1) eqn:Hd; [|done].
    apply Nat.eqb_eq in Hd. by subst.
  - simpl in Hlen. rewrite IH by lia. done.
Qed.

Lemma broadcast_pad_left (s1 s2 : list nat) :
  length s2 < length s1 →
  Shape.broadcast s1 (1 :: s2) = Shape.broadcast s1 s2.
Proof.
  intros Hlen. unfold Shape.broadcast. rewrite reverse_cons.
  rewrite broadcast_trailing_pad; [done|]. by rewrite !length_reverse.
Qed.

(** C7. Adding arrays of shapes (5,4,3,2) and (4,1,2) succeeds with a
    result of shape (5,4,3,2); adding shapes (5,4,3,2) and (5,4,3)
    fails.  A missing dimension is a length 1 inserted on the left (the
    shape (4,1,2) behaves as (1,4,1,2)); it is never inserted on the
    right: (5,4,3) is not read as (5,4,3,1), which would be accepted. *)
Theorem broadcast_inserts_dimensions_on_the_left `{E : Engine} :
  tensor_add (ones [5; 4; 3; 2]) (ones [4; 1; 2])
    = Some (full [5; 4; 3; 2] (add one one))
  ∧ tensor_add (ones [5; 4; 3; 2]) (ones [5; 4; 3]) = None
  ∧ (∀ s1 s2 : list nat,
       length s2 < length s1 →
       Shape.broadcast s1 s2 = Shape.broadcast s1 (1 :: s2))
  ∧ Shape.broadcast [5; 4; 3; 2] [1; 5; 4; 3] = None
  ∧ Shape.broadcast [5; 4; 3; 2] [5; 4; 3; 1] = Some [5; 4; 3; 2].
Proof.
  split_and!; try done.
  intros s1 s2 Hlen. by rewrite broadcast_pad_left.
Qed.

(** ** In-place updates through a list of references *)

Section Store.
Context {A : Type}.
Implicit Types (f : A → A) (l : list A) (refs : list nat).

Lemma update_all_length f refs l : length (update_all f refs l) = length l.
Proof.
  revert l. induction refs as [|r refs IH]; intros l; [done|].
  unfold update_all in *. simpl. by rewrite IH, length_alter.
Qed.

Lemma update_all_lookup f refs l i :
  NoDup refs ∨ (∀ a, f (f a) = f a) →
  update_all f refs l !! i = (if decide (i ∈ refs) then f else id) <$> l !! i.
Proof.
  intros Hf. revert l. induction refs as [|r refs IH]; intros l.
  - simpl. by destruct (l !! i).
  - assert (NoDup refs ∨ (∀ a, f (f a) = f a)) as Hf'.
    { destruct Hf as [Hnd|?]; [left|by right]. by apply NoDup_cons in Hnd as [_ ?]. }
    unfold update_all in *. simpl. rewrite (IH Hf').
    destruct (decide (i = r)) as [->|Hne].
    + rewrite list_lookup_alter_eq.
      destruct (l !! r) as [a|]; simpl; [|done].
      destruct (decide (r ∈ r :: refs)) as [_|Hn]; [|exfalso; apply Hn; left].
      destruct (decide (r ∈ refs)) as [Hin|]; [|done].
      destruct Hf as [Hnd|Hid]; [|simpl; by rewrite Hid].
      by apply NoDup_cons in Hnd as [? _].
    + rewrite list_lookup_alter_ne by done.
      destruct (decide (i ∈ refs)) as [Hin|Hnin];
        destruct (decide (i ∈ r :: refs)) as [Hin'|Hnin']; try done.
      * exfalso. apply Hnin'. by right.
      * apply elem_of_cons in Hin' as [?|?]; done.
Qed.

End Store.

Section StoreFacts.
Context `{E : Engine}.

Lemma zero_grad_eq refs ps : zero_grad refs ps = update_all reset_grad refs ps.
Proof. done. Qed.

Lemma sgd_step_eq lr refs ps : sgd_step lr refs ps = update_all (sgd_update lr) refs ps.
Proof. done. Qed.

Lemma zero__all_zero (t : tensor) : all_zero (zero_ t).
Proof. intros v [? [-> _]]%list_elem_of_fmap. done. Qed.

Lemma zero__idemp (t : tensor) : zero_ (zero_ t) = zero_ t.
Proof. unfold zero_. simpl. f_equal. by rewrite <- list_fmap_compose. Qed.

Lemma zero_grad_lookup refs ps i :
  zero_grad refs ps !! i = (if decide (i ∈ refs) then reset_grad else id) <$> ps !! i.
Proof.
  rewrite zero_grad_eq. apply update_all_lookup. right.
  intros [v g]. unfold reset_grad. simpl. by rewrite zero__idemp.
Qed.

Lemma zero_grad_values refs ps : values (zero_grad refs ps) = values ps.
Proof.
  apply list_eq. intros i. unfold values. rewrite !list_lookup_fmap, zero_grad_lookup.
  destruct (ps !! i) as [p|]; [|done]. simpl. by destruct (decide _).
Qed.

(** After the reset every accumulator the optimizer refers to is zero. *)
Lemma zero_grad_all_zero refs ps :
  (∀ i, i < length ps → i ∈ refs) →
  Forall (λ p, all_zero (grad p)) (zero_grad refs ps).
Proof.
  intros Hcov. apply Forall_lookup. intros i p Hp.
  rewrite zero_grad_lookup in Hp.
  destruct (ps !! i) as [q|] eqn:Hq; [|done]. simpl in Hp.
  rewrite decide_True in Hp.
  - injection Hp as <-. apply zero__all_zero.
  - apply Hcov. by eapply lookup_lt_Some.
Qed.

(** The reset keeps every value and the shape of every accumulator, and
    writes zero over each of the accumulator's entries. *)
Lemma zero_grad_keeps_layout refs ps :
  (∀ i, i < length ps → i ∈ refs) →
  Forall2 (λ p p', value p' = value p
                   ∧ shape (grad p') = shape (grad p)
                   ∧ data (grad p') = replicate (length (data (grad p))) zero)
          ps (zero_grad refs ps).
Proof.
  intros Hcov. apply Forall2_lookup. intros i. rewrite zero_grad_lookup.
  destruct (ps !! i) as [p|] eqn:Hp; simpl; constructor.
  rewrite decide_True by (apply Hcov; by eapply lookup_lt_Some).
  unfold reset_grad, zero_. simpl. split_and!; [done..|].
  by rewrite (const_fmap _ _ zero).
Qed.

End StoreFacts.

(** ** The training loop *)

Section LoopFacts.
Context `{E : Engine} (m : Model) (o : Optimizer).
Implicit Types (g : globals o) (x : tensor) (y : list Z).

Local Abbreviation iteration := (iteration m o).
Local Abbreviation train := (train m o).

Lemma after_reset_unfold x y L epoch g :
  after_reset m o x y L epoch g =
    match forward m (values (params o g)) x with
    | None => (Raise RuntimeError, g)
    | Some yh =>
        match cross_entropy yh y with
        | Raise e => (Raise e, set_yhat o yh g)
        | Ok l =>
            log_line o L epoch
              (optimizer_step o (backward m o x y (set_loss o l (set_yhat o yh g))))
        end
    end.
Proof.
  unfold after_reset, mbind, py_bind, get, lift, modify. simpl.
  destruct (forward m _ x) as [yh|]; simpl; [|done].
  by destruct (cross_entropy yh y).
Qed.

Lemma iteration_unfold x y L epoch g :
  iteration x y L epoch g = after_reset m o x y L epoch (reset o g).
Proof. done. Qed.

Lemma for_range_snoc (body : nat → py o unit) start count g :
  for_range o body start (S count) g =
    match for_range o body start count g with
    | (Ok _, g') => body (start + count) g'
    | (Raise e, g') => (Raise e, g')
    end.
Proof.
  revert start g. induction count as [|count IH]; intros start g.
  - simpl. unfold mbind, py_bind. rewrite Nat.add_0_r.
    destruct (body start g) as [[[]|e] g']; done.
  - change (for_range o body start (S (S count)) g)
      with (match body start g with
            | (Ok _, g') => for_range o body (S start) (S count) g'
            | (Raise e, g') => (Raise e, g')
            end).
    change (for_range o body start (S count) g)
      with (match body start g with
            | (Ok _, g') => for_range o body (S start) count g'
            | (Raise e, g') => (Raise e, g')
            end).
    destruct (body start g) as [[[]|e] g']; [|done].
    rewrite IH. by replace (S start + count) with (start + S count) by lia.
Qed.

Lemma train_S x y L n g :
  train x y L (S n) g =
    match train x y L n g with
    | (Ok _, gn) => iteration x y L n gn
    | (Raise e, gn) => (Raise e, gn)
    end.
Proof. unfold train. by rewrite for_range_snoc. Qed.

Lemma for_range_split (body : nat → py o unit) start k count g :
  for_range o body start (k + count) g =
    match for_range o body start k g with
    | (Ok _, g') => for_range o body (start + k) count g'
    | (Raise e, g') => (Raise e, g')
    end.
Proof.
  revert start g. induction k as [|k IH]; intros start g.
  - simpl. by rewrite Nat.add_0_r.
  - change (for_range o body start (S k + count) g)
      with (match body start g with
            | (Ok _, g') => for_range o body (S start) (k + count) g'
            | (Raise e, g') => (Raise e, g')
            end).
    change (for_range o body start (S k) g)
      with (match body start g with
            | (Ok _, g') => for_range o body (S start) k g'
            | (Raise e, g') => (Raise e, g')
            end).
    destruct (body start g) as [[[]|e] g']; [|done].
    rewrite IH. by replace (S start + k) with (start + S k) by lia.
Qed.

End LoopFacts.

(** Runs an iteration symbolically up to the first statement whose
    outcome is not known. *)
Ltac run_iteration :=
  rewrite ?iteration_unfold, ?after_reset_unfold; simpl;
  rewrite ?zero_grad_values.

Section LoopProperties.
Context `{E : Engine} (m : Model) (o : Optimizer).
Implicit Types (g : globals o) (x : tensor) (y : list Z).

Lemma zero__eq (t t' : tensor) :
  shape t' = shape t → length (data t') = length (data t) → zero_ t' = zero_ t.
Proof.
  intros Hs Hl. unfold zero_. rewrite Hs. f_equal.
  rewrite !(const_fmap _ _ zero) by done. by rewrite Hl.
Qed.

Lemma reset_stale_variant g g' :
  (∀ i, i < length (params o g) → i ∈ param_refs o) →
  stale_variant o g g' → reset o g' = reset o g.
Proof.
  intros Hcov (Hgen & Host & Hyh & Hl & Hout & Hps).
  destruct g as [gen ps st yh l out], g' as [gen' ps' st' yh' l' out'].
  simpl in *. subst. unfold reset, set_params. simpl. f_equal.
  apply list_eq. intros i. rewrite !zero_grad_lookup.
  destruct (ps !! i) as [p|] eqn:Hp.
  - destruct (Forall2_lookup_l _ _ _ _ _ Hps Hp) as (p' & Hp' & Hv & Hs & Hlen).
    rewrite Hp'. simpl. rewrite decide_True.
    + unfold reset_grad. by rewrite Hv, (zero__eq _ _ Hs Hlen).
    + apply Hcov. by eapply lookup_lt_Some.
  - apply Forall2_length in Hps. apply lookup_ge_None in Hp.
    rewrite (proj2 (lookup_ge_None ps' i)) by lia. done.
Qed.

(** C1. Whenever the loop reaches an iteration, that iteration starts
    with the reset and runs its remaining statements from the reset
    state, in which the accumulator of every Parameter (all of them are
    in the optimizer's list) is exactly zero and the values are
    untouched: each accumulator has the shape and the number of entries
    it had before the reset, and every one of these entries is zero.
    Nothing that the accumulators held before, from an earlier
    iteration or otherwise, has any effect on the iteration. *)
Theorem gradients_are_reset_in_every_iteration x y L n k g gk :
  k < n →
  train m o x y L k g = (Ok tt, gk) →
  (∀ i, i < length (params o gk) → i ∈ param_refs o) →
  train m o x y L (S k) g = after_reset m o x y L k (reset o gk)
  ∧ Forall (λ p, all_zero (grad p)) (params o (reset o gk))
  ∧ values (params o (reset o gk)) = values (params o gk)
  ∧ Forall2 (λ p p', value p' = value p
                     ∧ shape (grad p') = shape (grad p)
                     ∧ data (grad p') = replicate (length (data (grad p))) zero)
            (params o gk) (params o (reset o gk))
  ∧ (∀ g', stale_variant o gk g' → iteration m o x y L k g' = iteration m o x y L k gk)
  ∧ train m o x y L n g =
      match train m o x y L (S k) g with
      | (Ok _, g') => for_range o (iteration m o x y L) (S k) (n - S k) g'
      | (Raise e, g') => (Raise e, g')
      end.
Proof.
  intros Hk Hrun Hcov. split_and!.
  - rewrite train_S, Hrun. apply iteration_unfold.
  - simpl. by apply zero_grad_all_zero.
  - simpl. apply zero_grad_values.
  - simpl. by apply zero_grad_keeps_layout.
  - intros g' Hstale. rewrite !iteration_unfold.
    by rewrite (reset_stale_variant _ _ Hcov Hstale).
  - unfold train at 1.
    replace n with (S k + (n - S k)) at 1 by lia.
    rewrite for_range_split. done.
Qed.

(** C6. With no iteration the loop returns at once: the state, and so
    the value of every Parameter, is the one before the call, and [run]
    ends with no loss bound. *)
Theorem zero_iterations_change_nothing x y L :
  (∀ g, train m o x y L 0 g = (Ok tt, g))
  ∧ ∀ ps gen,
      (run m o ps gen x y 0 L).1 = Ok tt
      ∧ params o (run m o ps gen x y 0 L).2 = ps
      ∧ loss o (run m o ps gen x y 0 L).2 = None.
Proof. done. Qed.

(** *** The loss *)

Lemma nll_acc_valid c acc cnt lps (y : list Z) :
  (∀ l, l ∈ y → (0 ≤ l < Z.of_nat c)%Z) →
  nll_acc c acc cnt lps y
    = Ok (foldl add acc (zip_with pick lps y), cnt + length (zip_with pick lps y)).
Proof.
  revert acc cnt y. induction lps as [|lp lps IH]; intros acc cnt y Hy.
  - simpl. by rewrite Nat.add_0_r.
  - destruct y as [|l y]; simpl; [by rewrite Nat.add_0_r|].
    assert (0 ≤ l < Z.of_nat c)%Z as Hl by (apply Hy; left).
    destruct (Z.eqb_spec l ignore_index) as [->|_]; [unfold ignore_index in Hl; lia|].
    destruct (Z.leb_spec 0 l); [|lia]. destruct (Z.ltb_spec l (Z.of_nat c)); [|lia].
    simpl. rewrite IH by (intros; apply Hy; by right).
    do 2 f_equal. lia.
Qed.

Lemma rows_length (t : tensor) n c rs :
  shape t = [n; c] → rows t = Some rs → length rs = n.
Proof.
  unfold rows. intros ->. intros [= <-]. by rewrite length_fmap, length_seq.
Qed.

Lemma cross_entropy_valid (pred : tensor) (y : list Z) n c :
  shape pred = [n; c] → valid_labels n c y →
  cross_entropy pred y = Ok (cross_entropy_spec pred y).
Proof.
  intros Hshape [<- Hrange]. unfold cross_entropy, cross_entropy_spec.
  rewrite Hshape, Nat.eqb_refl.
  destruct (rows pred) as [rs|] eqn:Hrows; [|by unfold rows in Hrows; rewrite Hshape in Hrows].
  unfold log_softmax. rewrite Hrows. simpl.
  rewrite nll_acc_valid by done. simpl. f_equal.
  assert (length (log_softmax_row <$> rs) = length y) as Hl.
  { rewrite length_fmap. erewrite rows_length; eauto. }
  set (lps := log_softmax_row <$> rs) in *.
  unfold mean. rewrite length_fmap, length_seq.
  assert ((λ i, default zero (lp ← lps !! i; lp !! Z.to_nat (default 0%Z (y !! i))))
            <$> seq 0 (length y) = zip_with pick lps y) as ->.
  { apply list_eq. intros i. rewrite list_lookup_fmap, lookup_zip_with.
    destruct (decide (i < length y)) as [Hi|Hi].
    - rewrite lookup_seq_lt by done. simpl.
      destruct (lookup_lt_is_Some_2 y i Hi) as [l Hyi].
      destruct (lookup_lt_is_Some_2 lps i) as [lp Hlp]; [lia|].
      rewrite Hyi, Hlp. done.
    - rewrite lookup_seq_ge by lia. simpl.
      rewrite (proj2 (lookup_ge_None lps i)) by lia. done. }
  rewrite length_zip_with. do 3 f_equal. lia.
Qed.

Lemma log_line_unfold L epoch g :
  log_line o L epoch g =
    if epoch =? 0 then (Ok tt, g)
    else if L =? 0 then (Raise ZeroDivisionError, g)
    else if epoch mod L =? 0
         then match loss o g with
              | Some l => (Ok tt, print o (epoch, l) g)
              | None => (Raise NameError, g)
              end
         else (Ok tt, g).
Proof.
  unfold log_line, py_mod. destruct (epoch =? 0); [done|].
  unfold mbind, py_bind, lift, get, modify. destruct (L =? 0); [done|].
  simpl. destruct (epoch mod L =? 0); [|done]. by destruct (loss o g).
Qed.

Lemma optimizer_step_frame g :
  generator o (optimizer_step o g) = generator o g
  ∧ yhat o (optimizer_step o g) = yhat o g
  ∧ loss o (optimizer_step o g) = loss o g
  ∧ stdout o (optimizer_step o g) = stdout o g.
Proof. unfold optimizer_step. by destruct (step o _ _). Qed.

(** What one iteration leaves in [yhat], [loss] and [stdout] once the
    loss has been computed. *)
Lemma iteration_computed x y L epoch g pred l :
  forward m (values (params o g)) x = Some pred →
  cross_entropy pred y = Ok l →
  yhat o (iteration m o x y L epoch g).2 = Some pred
  ∧ loss o (iteration m o x y L epoch g).2 = Some l
  ∧ stdout o (iteration m o x y L epoch g).2
      = stdout o g ++ (if log_due L epoch then [(epoch, l)] else [])
  ∧ (iteration m o x y L epoch g).1
      = if (0 <? epoch) && (L =? 0) then Raise ZeroDivisionError else Ok tt.
Proof.
  intros Hf Hl. run_iteration. rewrite Hf, Hl, log_line_unfold.
  set (g3 := optimizer_step o _).
  destruct (optimizer_step_frame
              (backward m o x y (set_loss o l (set_yhat o pred (reset o g)))))
    as (_ & Hy & Hlo & Hout).
  fold g3 in Hy, Hlo, Hout. simpl in Hy, Hlo, Hout.
  unfold log_due.
  replace (0 <? epoch) with (negb (epoch =? 0)) by by destruct epoch.
  replace (0 <? L) with (negb (L =? 0)) by by destruct L.
  destruct (epoch =? 0), (L =? 0), (epoch mod L =? 0); simpl;
    rewrite ?Hlo; simpl; rewrite ?Hy, ?Hlo, ?Hout, ?app_nil_r; done.
Qed.

Lemma iteration_params x y L epoch g pred l :
  forward m (values (params o g)) x = Some pred →
  cross_entropy pred y = Ok l →
  params o (iteration m o x y L epoch g).2
  = (step o (ostate o g)
       (accumulate (gradient m (values (params o g)) x y)
          (zero_grad (param_refs o) (params o g)))).2.
Proof.
  intros Hf Hl. run_iteration. rewrite Hf, Hl, log_line_unfold.
  unfold optimizer_step, backward. simpl. rewrite zero_grad_values.
  destruct (step o _ _) as [st ps].
  destruct (epoch =? 0), (L =? 0), (epoch mod L =? 0); simpl; try done.
Qed.

(** C3. In each iteration the loss is the cross-entropy of the logits
    of that iteration's forward pass, which runs on the Parameters as
    they are when the iteration starts: minus the mean over all examples
    [i] of [log_softmax(prediction)[i, labels[i]]]. *)
Theorem loss_is_cross_entropy_of_the_logits x y L k g gk pred n c :
  train m o x y L k g = (Ok tt, gk) →
  forward m (values (params o gk)) x = Some pred →
  shape pred = [n; c] →
  valid_labels n c y →
  loss o (train m o x y L (S k) g).2 = Some (cross_entropy_spec pred y)
  ∧ yhat o (train m o x y L (S k) g).2 = Some pred.
Proof.
  intros Hrun Hf Hshape Hvalid. rewrite train_S, Hrun.
  destruct (iteration_computed x y L k gk pred _ Hf
              (cross_entropy_valid pred y n c Hshape Hvalid)) as (Hy & Hl & _).
  done.
Qed.

(** *** Logging *)





End LoopProperties.

(** ** The optimizer step *)

Section Descent.
Context `{E : Engine} (m : Model).

Lemma sgd_step_lookup (lr : R) (refs : list nat) (ps : list Param) i :
  NoDup refs →
  sgd_step lr refs ps !! i = (if decide (i ∈ refs) then sgd_update lr else id) <$> ps !! i.
Proof. intros Hnd. rewrite sgd_step_eq. apply update_all_lookup. by left. Qed.

(** C4. [step] of the plain gradient-descent optimizer replaces the
    value of each Parameter in its list by [value - lr * grad], entry by
    entry, and leaves everything else as it was: the gradient
    accumulators, the shapes, the Parameters outside the list, the
    number of Parameters and the optimizer's own state.  In the loop,
    [grad] is what the iteration's backward pass added to the zeroed
    accumulator, so an iteration takes each entry [v] of a value to
    [v - lr * (0 + g)] for the entry [g] of this iteration's gradient. *)
Theorem sgd_step_is_gradient_descent (lr : R) (refs : list nat) (ps : list Param) :
  NoDup refs →
  ((step (SGD refs lr) tt ps).1 = tt
   ∧ length (step (SGD refs lr) tt ps).2 = length ps
   ∧ ∀ i p, ps !! i = Some p →
       ∃ p', (step (SGD refs lr) tt ps).2 !! i = Some p'
         ∧ grad p' = grad p
         ∧ shape (value p') = shape (value p)
         ∧ (i ∈ refs →
              ∀ k v g, data (value p) !! k = Some v → data (grad p) !! k = Some g →
                       data (value p') !! k = Some (sub v (mul lr g)))
         ∧ (i ∉ refs → p' = p))
  ∧ ∀ x y L epoch (g : globals (SGD refs lr)) pred l i p gt k v a gk,
      forward m (values (params _ g)) x = Some pred →
      cross_entropy pred y = Ok l →
      i ∈ refs →
      params _ g !! i = Some p →
      gradient m (values (params _ g)) x y !! i = Some gt →
      data (value p) !! k = Some v →
      data (grad p) !! k = Some a →
      data gt !! k = Some gk →
      ∃ p', params _ (iteration m (SGD refs lr) x y L epoch g).2 !! i = Some p'
            ∧ data (value p') !! k = Some (sub v (mul lr (add zero gk))).
Proof.
  intros Hnd. split.
  - simpl. split; [done|]. split.
    { rewrite sgd_step_eq. apply update_all_length. }
    intros i p Hp. rewrite sgd_step_lookup by done.
    rewrite Hp. simpl. destruct (decide (i ∈ refs)) as [Hin|Hnin].
    + eexists. split; [done|]. simpl. split_and!; try done.
      intros _ k v g Hv Hg. rewrite lookup_zip_with, Hv. simpl. by rewrite Hg.
    + exists p. split_and!; done.
  - intros x y L epoch g pred l i p gt k v a gk Hf Hl Hin Hp Hgt Hv Ha Hgk.
    rewrite (iteration_params m (SGD refs lr) x y L epoch g pred l Hf Hl). simpl.
    rewrite sgd_step_lookup by done. rewrite decide_True by done.
    unfold accumulate. rewrite list_lookup_imap, zero_grad_lookup, Hp.
    rewrite decide_True by done. simpl. rewrite Hgt.
    eexists. split; [done|]. simpl.
    rewrite !lookup_zip_with, Hv, list_lookup_fmap, Ha. simpl. by rewrite Hgk.
Qed.

End Descent.

(** ** The error rate *)

Section Metric.
Context `{E : Engine}.

Lemma rows_well_formed (t : tensor) n c :
  shape t = [n; c] → well_formed t →
  ∃ rs, rows t = Some rs ∧ length rs = n ∧ ∀ i r, rs !! i = Some r → length r = c.
Proof.
  unfold well_formed, rows. intros -> Hlen. simpl in Hlen. eexists. split; [done|].
  split; [by rewrite length_fmap, length_seq|].
  intros i r [k [-> Hk]]%list_lookup_fmap_Some. apply lookup_seq in Hk as [-> Hk].
  rewrite length_take, length_drop. simpl. nia.
Qed.

Lemma argmax1_rows (t : tensor) n c :
  shape t = [n; c] → 0 < c → argmax1 t = rows t ≫= mapM argmax_row.
Proof. unfold argmax1. intros -> Hc. destruct c; [lia|done]. Qed.

Lemma sum_mask (mask : list bool) (P : nat → Prop) `{!∀ i, Decision (P i)} start :
  (∀ i b, mask !! i = Some b → b = bool_decide (P (start + i))) →
  (foldr Qplus 0 (to_float mask)
   == inject_Z (Z.of_nat (length (filter P (seq start (length mask))))))%Q.
Proof.
  revert start. induction mask as [|b mask IH]; intros start Hmask; [done|].
  simpl. rewrite filter_cons.
  assert (b = bool_decide (P start)) as ->.
  { specialize (Hmask 0 b eq_refl). by rewrite Nat.add_0_r in Hmask. }
  rewrite (IH (S start)).
  - destruct (decide (P start)) as [HP|HP].
    + rewrite bool_decide_eq_true_2 by done. simpl length.
      rewrite Nat2Z.inj_succ, <- Z.add_1_l, inject_Z_plus. done.
    + rewrite bool_decide_eq_false_2 by done. ring.
  - intros i b' Hi. specialize (Hmask (S i) b' Hi).
    by replace (S start + i) with (start + S i) by lia.
Qed.

Lemma fraction_in_unit_interval (k n : nat) :
  k ≤ n → 0 < n →
  (0 <= inject_Z (Z.of_nat k) / inject_Z (Z.of_nat n) <= 1)%Q.
Proof.
  intros Hk Hn.
  assert (0 < inject_Z (Z.of_nat n))%Q as Hpos.
  { change 0%Q with (inject_Z 0). rewrite <- Zlt_Qlt. lia. }
  split.
  - apply Qle_shift_div_l; [done|]. rewrite Qmult_0_l.
    change 0%Q with (inject_Z 0). rewrite <- Zle_Qle. lia.
  - apply Qle_shift_div_r; [done|]. rewrite Qmult_1_l. rewrite <- Zle_Qle. lia.
Qed.

Lemma float_mean_nonempty (l : list Q) :
  0 < length l →
  float_mean l = Fin (Qred (foldr Qplus 0%Q l / inject_Z (Z.of_nat (length l)))).
Proof. destruct l; simpl; [lia|done]. Qed.

Lemma error_rate_fraction (pred : tensor) (y : list Z) n c :
  shape pred = [n; c] → well_formed pred → valid_labels n c y → 0 < n →
  ∃ q, error_rate pred y = Ok (Fin q)
       ∧ (q == mismatch_fraction pred y)%Q
       ∧ (0 <= q <= 1)%Q.
Proof.
  intros Hshape Hwf [Hlen Hrange] Hn.
  destruct (rows_well_formed pred n c Hshape Hwf) as (rs & Hrows & Hrs & Hrow).
  assert (0 < c) as Hc.
  { destruct y as [|l y]; simpl in Hlen; [lia|].
    assert (l ∈ l :: y) as Hin by left. apply Hrange in Hin. lia. }
  assert (∃ preds, mapM argmax_row rs = Some preds) as [preds Hpreds].
  { apply mapM_is_Some, Forall_lookup. intros i r Hr. simpl.
    apply Hrow in Hr. destruct r; simpl in *; [lia|]. by eexists. }
  pose proof Hpreds as Hall. apply mapM_Some in Hall.
  assert (length preds = length y) as Hpl.
  { apply Forall2_length in Hall. lia. }
  unfold error_rate. rewrite (argmax1_rows pred n c Hshape Hc), Hrows. simpl.
  rewrite Hpreds. simpl.
  unfold ne. rewrite Hpl, Nat.eqb_refl. simpl.
  set (mask := zip_with _ preds y).
  assert (length mask = n) as Hml.
  { unfold mask. rewrite length_zip_with. lia. }
  assert (∀ i b, mask !! i = Some b → b = bool_decide (mismatch pred y (0 + i))) as Hmask.
  { intros i b Hb. unfold mask in Hb.
    apply lookup_zip_with_Some in Hb as (p & l & -> & Hp & Hl).
    destruct (Forall2_lookup_r _ _ _ _ _ Hall Hp) as (r & Hr & Hrp).
    unfold mismatch. rewrite Hrows. simpl. rewrite Hr. simpl. rewrite Hrp, Hl.
    destruct (Z.eqb_spec p l) as [->|Hne]; simpl.
    - by rewrite bool_decide_eq_false_2 by (intros ?; done).
    - rewrite bool_decide_eq_true_2; [done|]. congruence. }
  pose proof (sum_mask mask (mismatch pred y) 0 Hmask) as Hsum.
  rewrite float_mean_nonempty
    by (unfold to_float; rewrite length_fmap; lia).
  eexists. split; [done|].
  assert (Qred (foldr Qplus 0 (to_float mask) / inject_Z (Z.of_nat (length (to_float mask))))
          == mismatch_fraction pred y)%Q as Hq.
  { rewrite Qred_correct. unfold mismatch_fraction. rewrite Hshape.
    unfold to_float at 2. rewrite length_fmap, Hml. rewrite Hsum, Hml. reflexivity. }
  split; [exact Hq|]. rewrite Hq. unfold mismatch_fraction. rewrite Hshape.
  apply fraction_in_unit_interval; [|done].
  etrans; [apply length_filter|]. by rewrite length_seq.
Qed.

End Metric.

Section Evaluation.
Context `{E : Engine} (m : Model) (o : Optimizer).
Implicit Types (g : globals o) (x : tensor) (y : list Z).

(** C2, amended. On a dataset with at least one row whose labels fit
    the model's prediction (one label per row, each a class), the
    error rate is the fraction of rows whose arg-max class differs from
    the label, and lies in [0, 1]. *)
Theorem error_rate_is_the_mismatch_fraction (ps : list Param) x y pred n c :
  forward m (values ps) x = Some pred →
  shape pred = [n; c] →
  well_formed pred →
  valid_labels n c y →
  0 < n →
  ∃ q, classificationErrorRate m ps x y = Ok (Fin q)
       ∧ (q == mismatch_fraction pred y)%Q
       ∧ in_unit_interval (classificationErrorRate m ps x y).
Proof.
  intros Hf Hshape Hwf Hvalid Hn.
  destruct (error_rate_fraction pred y n c Hshape Hwf Hvalid Hn) as (q & Hq & Heq & Hin).
  exists q. unfold classificationErrorRate. rewrite Hf. simpl. by rewrite Hq.
Qed.

(** *** Malformed input *)

Lemma nll_acc_bad c acc cnt (lps : list (list R)) (y : list Z) :
  length lps = length y →
  (∃ l, l ∈ y ∧ l ≠ ignore_index ∧ ¬ (0 ≤ l < Z.of_nat c)%Z) →
  nll_acc c acc cnt lps y = Raise RuntimeError.
Proof.
  revert acc cnt y. induction lps as [|lp lps IH]; intros acc cnt [|l y] Hlen Hbad;
    simpl in Hlen; try lia.
  - destruct Hbad as (l & Hin & _). inversion Hin.
  - simpl. destruct Hbad as (l' & Hin & Hni & Hout).
    destruct (Z.eqb_spec l ignore_index) as [->|Hl].
    + apply IH; [lia|]. exists l'. apply elem_of_cons in Hin as [->|Hin]; done.
    + destruct (Z.leb_spec 0 l), (Z.ltb_spec l (Z.of_nat c)); simpl; try done.
      apply IH; [lia|]. exists l'. apply elem_of_cons in Hin as [->|Hin]; [lia|done].
Qed.

Lemma cross_entropy_malformed (pred : tensor) y n c :
  shape pred = [n; c] →
  length y ≠ n ∨ (∃ l, l ∈ y ∧ l ≠ ignore_index ∧ ¬ (0 ≤ l < Z.of_nat c)%Z) →
  ∃ e, cross_entropy pred y = Raise e.
Proof.
  intros Hshape Hbad. unfold cross_entropy. rewrite Hshape.
  destruct (Nat.eqb_spec n (length y)) as [->|Hne]; [|by eexists].
  destruct Hbad as [?|Hbad]; [done|].
  unfold log_softmax, rows. rewrite Hshape. simpl.
  rewrite nll_acc_bad; [by eexists| |done].
  by rewrite !length_fmap, length_seq.
Qed.

Lemma for_range_first (body : nat → py o unit) start count g :
  for_range o body start (S count) g =
    match body start g with
    | (Ok _, g') => for_range o body (S start) count g'
    | (Raise e, g') => (Raise e, g')
    end.
Proof. done. Qed.

(** C8, amended. Nothing is checked before the loop.  When at least one
    iteration is asked for and the labels do not fit the prediction
    (their number differs from the number of rows, or one of them is
    neither a class nor the engine's ignore marker), the loss
    computation of the first iteration raises the engine's error, after
    the reset and the forward pass and before any optimizer step; the
    value of every Parameter is as it was. *)
Theorem malformed_input_stops_the_first_iteration
    (ps : list Param) (gen : rng) x y n L pred N C :
  0 < n →
  forward m (values ps) x = Some pred →
  shape pred = [N; C] →
  length y ≠ N ∨ (∃ l, l ∈ y ∧ l ≠ ignore_index ∧ ¬ (0 ≤ l < Z.of_nat C)%Z) →
  ∃ e, (run m o ps gen x y n L).1 = Raise e
       ∧ params o (run m o ps gen x y n L).2 = zero_grad (param_refs o) ps
       ∧ values (params o (run m o ps gen x y n L).2) = values ps
       ∧ yhat o (run m o ps gen x y n L).2 = Some pred
       ∧ loss o (run m o ps gen x y n L).2 = None
       ∧ stdout o (run m o ps gen x y n L).2 = []
       ∧ run m o ps gen x y 0 L = (Ok tt, start o ps gen).
Proof.
  intros Hn Hf Hshape Hbad. destruct n as [|n]; [lia|].
  destruct (cross_entropy_malformed pred y N C Hshape Hbad) as [e He].
  exists e. unfold run, train. rewrite for_range_first.
  run_iteration. rewrite Hf, He. simpl. split_and!; try done.
  apply zero_grad_values.
Qed.

End Evaluation.

(** ** Determinism and the reported error rates *)

Section Cell.
Context `{E : Engine} (m : Model) (o : Optimizer).
Implicit Types (g : globals o) (x : tensor) (y : list Z).

Lemma create_unfold seed g : create m o seed g = (Ok tt, created m o seed g).
Proof.
  unfold create, created, mbind, py_bind, modify, get, set_generator. simpl.
  by destruct (init m (manual_seed seed)).
Qed.

Lemma created_same_objects seed g1 g2 :
  same_objects o (created m o seed g1) (created m o seed g2).
Proof. unfold created. by destruct (init m (manual_seed seed)). Qed.

Lemma iteration_same_objects x y L epoch g1 g2 :
  same_objects o g1 g2 →
  (iteration m o x y L epoch g1).1 = (iteration m o x y L epoch g2).1
  ∧ same_objects o (iteration m o x y L epoch g1).2 (iteration m o x y L epoch g2).2
  ∧ ((iteration m o x y L epoch g1).1 = Ok tt →
       yhat o (iteration m o x y L epoch g1).2 = yhat o (iteration m o x y L epoch g2).2
       ∧ loss o (iteration m o x y L epoch g1).2 = loss o (iteration m o x y L epoch g2).2).
Proof.
  destruct g1 as [gen1 ps1 st1 yh1 l1 out1], g2 as [gen2 ps2 st2 yh2 l2 out2].
  intros (Hg & Hp & Hs). simpl in *. subst.
  rewrite !iteration_unfold, !after_reset_unfold. simpl.
  destruct (forward m _ x) as [pred|]; [|done].
  destruct (cross_entropy pred y) as [l|e]; [|done].
  rewrite !log_line_unfold. unfold optimizer_step, backward. simpl.
  destruct (step o st2 _) as [st' ps'].
  destruct (epoch =? 0), (L =? 0), (epoch mod L =? 0); done.
Qed.

Lemma for_range_same_objects x y L start count g1 g2 :
  same_objects o g1 g2 →
  (for_range o (iteration m o x y L) start count g1).1
    = (for_range o (iteration m o x y L) start count g2).1
  ∧ same_objects o (for_range o (iteration m o x y L) start count g1).2
                   (for_range o (iteration m o x y L) start count g2).2
  ∧ (0 < count → (for_range o (iteration m o x y L) start count g1).1 = Ok tt →
       yhat o (for_range o (iteration m o x y L) start count g1).2
         = yhat o (for_range o (iteration m o x y L) start count g2).2
       ∧ loss o (for_range o (iteration m o x y L) start count g1).2
         = loss o (for_range o (iteration m o x y L) start count g2).2).
Proof.
  intros Hsame. induction count as [|count (Hres & Hobj & _)].
  - simpl. split_and!; [done..|lia].
  - rewrite !for_range_snoc.
    destruct (for_range o _ start count g1) as [[[]|e1] h1],
             (for_range o _ start count g2) as [[[]|e2] h2]; simpl in *; try done.
    destruct (iteration_same_objects x y L (start + count) h1 h2 Hobj) as (? & ? & ?).
    split_and!; auto.
Qed.

Lemma report_same_objects y x' y' g1 g2 :
  same_objects o g1 g2 → yhat o g1 = yhat o g2 →
  (report m o y x' y' g1).1 = (report m o y x' y' g2).1
  ∧ params o (report m o y x' y' g1).2 = params o (report m o y x' y' g2).2
  ∧ (loss o g1 = loss o g2 →
       loss o (report m o y x' y' g1).2 = loss o (report m o y x' y' g2).2).
Proof.
  destruct g1 as [gen1 ps1 st1 yh1 l1 out1], g2 as [gen2 ps2 st2 yh2 l2 out2].
  intros (Hg & Hp & Hs) Hy. simpl in *. subst.
  unfold report, mbind, py_bind, get, lift, modify. simpl.
  destruct yh2 as [yh|]; simpl; [|done].
  destruct (error_rate yh y); simpl; [|done].
  destruct (forward m (values ps2) x') as [yh'|]; simpl; [|done].
  destruct (error_rate yh' y'); done.
Qed.

Lemma cell_unfold seed L n x y x' y' g :
  cell m o seed L n x y x' y' g =
    match train m o x y L n (created m o seed g) with
    | (Ok _, g') => report m o y x' y' g'
    | (Raise e, g') => (Raise e, g')
    end.
Proof.
  unfold cell. unfold mbind at 1. unfold py_bind at 1. rewrite create_unfold.
  unfold mbind, py_bind. by destruct (train m o x y L n _) as [[[]|e] g'].
Qed.

(** C9. The outcome of a cell that sets the seed, creates the model and
    the optimizer, trains for at least one iteration and reports does
    not depend on the state it is started in: two runs with the same
    seed, data and hyperparameters return the same error rates or raise
    the same exception, and when they return they end with the same
    loss and the same Parameters.  The evaluation routine is a function
    of the Parameters' values and the data. *)
Theorem runs_with_one_seed_agree seed L n x y x' y' g1 g2 :
  0 < n →
  (cell m o seed L n x y x' y' g1).1 = (cell m o seed L n x y x' y' g2).1
  ∧ (∀ rates, (cell m o seed L n x y x' y' g1).1 = Ok rates →
       loss o (cell m o seed L n x y x' y' g1).2 = loss o (cell m o seed L n x y x' y' g2).2
       ∧ params o (cell m o seed L n x y x' y' g1).2
         = params o (cell m o seed L n x y x' y' g2).2)
  ∧ (∀ ps1 ps2 : list Param, values ps1 = values ps2 →
       classificationErrorRate m ps1 x' y' = classificationErrorRate m ps2 x' y').
Proof.
  intros Hn. split_and!.
  3: { intros ps1 ps2 Hv. unfold classificationErrorRate. by rewrite Hv. }
  all: rewrite !cell_unfold; unfold train;
    destruct (for_range_same_objects x y L 0 n _ _ (created_same_objects seed g1 g2))
      as (Hres & Hobj & Hyl);
    destruct (for_range o _ 0 n (created m o seed g1)) as [[[]|e1] h1],
             (for_range o _ 0 n (created m o seed g2)) as [[[]|e2] h2];
    simpl in *; try done.
  2: { by injection Hres as ->. }
  - destruct (Hyl Hn eq_refl) as [Hy Hl].
    by destruct (report_same_objects y x' y' h1 h2 Hobj Hy) as (? & _).
  - intros rates Hok. destruct (Hyl Hn eq_refl) as [Hy Hl].
    destruct (report_same_objects y x' y' h1 h2 Hobj Hy) as (_ & ? & Hloss). auto.
Qed.

Lemma report_after_training seed L n x y x' y' g tr te :
  (cell m o seed L (S n) x y x' y' g).1 = Ok (tr, te) →
  ∃ before pred,
    train m o x y L n (created m o seed g) = (Ok tt, before)
    ∧ forward m (values (params o before)) x = Some pred
    ∧ error_rate pred y = Ok tr
    ∧ params o (cell m o seed L (S n) x y x' y' g).2
      = params o (train m o x y L (S n) (created m o seed g)).2
    ∧ classificationErrorRate m (params o (cell m o seed L (S n) x y x' y' g).2) x' y'
      = Ok te.
Proof.
  rewrite cell_unfold, train_S.
  destruct (train m o x y L n (created m o seed g)) as [[[]|e] before]; [|done].
  intros Hcell. exists before.
  destruct (forward m (values (params o before)) x) as [pred|] eqn:Hf.
  2: { rewrite iteration_unfold, after_reset_unfold in Hcell. simpl in Hcell.
       rewrite zero_grad_values, Hf in Hcell. done. }
  exists pred.
  destruct (cross_entropy pred y) as [l|e] eqn:Hl.
  2: { rewrite iteration_unfold, after_reset_unfold in Hcell. simpl in Hcell.
       rewrite zero_grad_values, Hf, Hl in Hcell. done. }
  destruct (iteration_computed m o x y L n before pred l Hf Hl) as (Hy & _ & _ & _).
  destruct (iteration m o x y L n before) as [[[]|e] final]; [|done].
  simpl in Hy. revert Hcell.
  unfold report, mbind, py_bind, get, lift, modify. simpl.
  rewrite Hy. simpl.
  destruct (error_rate pred y) as [tr'|]; simpl; [|done].
  unfold classificationErrorRate.
  destruct (forward m (values (params o final)) x') as [pred'|] eqn:Hf'; simpl; [|done].
  destruct (error_rate pred' y') as [te'|] eqn:Hte; simpl; [|done].
  intros [= -> ->]. rewrite Hf'. simpl. by rewrite Hte.
Qed.

End Cell.

(** ** Cell 30 runs to completion on well-shaped data *)

Section LinearRuns.
Context `{E : Engine}.
Implicit Types (x : tensor) (y : list Z) (ps : list Param).

Lemma tensor_add_well_formed (a b t : tensor) :
  tensor_add a b = Some t → well_formed t.
Proof.
  unfold tensor_add, broadcast_op, well_formed.
  destruct (Shape.broadcast _ _) as [s|]; simpl; [|done].
  intros [= <-]. simpl. by rewrite length_fmap, length_seq.
Qed.

Lemma broadcast_rows_with_vector (n c : nat) : Shape.broadcast [n; c] [c] = Some [n; c].
Proof. unfold Shape.broadcast. simpl. by rewrite Nat.eqb_refl. Qed.

Lemma linear_forward_ok k c ps x n :
  linear_shapes k c ps → shape x = [n; k] →
  ∃ pred, linear_forward (values ps) x = Some pred
          ∧ shape pred = [n; c] ∧ well_formed pred.
Proof.
  intros (W & b & -> & HW & Hb) Hx. unfold linear_forward. simpl.
  unfold mm. rewrite Hx, HW, Nat.eqb_refl. simpl.
  destruct (tensor_add _ (value b)) as [pred|] eqn:Hadd.
  - exists pred. split; [done|]. split; [|by eapply tensor_add_well_formed].
    unfold tensor_add, broadcast_op in Hadd. simpl in Hadd.
    rewrite Hb, broadcast_rows_with_vector in Hadd. simpl in Hadd.
    by injection Hadd as <-.
  - unfold tensor_add, broadcast_op in Hadd. simpl in Hadd.
    by rewrite Hb, broadcast_rows_with_vector in Hadd.
Qed.

Lemma linear_init_shapes (gen : rng) :
  linear_shapes 4 3 (nn_Parameter <$> (linear_init gen).1).
Proof.
  unfold linear_init, uniform_. destruct (draws _ _ _ gen) as [vs gen']. simpl.
  by eexists _, _.
Qed.

Lemma iteration_keeps_linear_shapes k c lr ps gs :
  linear_shapes k c ps →
  linear_shapes k c (sgd_step lr [0; 1] (accumulate gs (zero_grad [0; 1] ps))).
Proof. intros (W & b & -> & HW & Hb). simpl. destruct gs as [|? [|? ?]]; by eexists _, _. Qed.

Lemma linear_iteration_completes k c lr x y n L epoch (g : globals (SGD [0; 1] lr)) :
  linear_shapes k c (params _ g) → shape x = [n; k] → valid_labels n c y → 0 < L →
  ∃ g' pred, iteration linear (SGD [0; 1] lr) x y L epoch g = (Ok tt, g')
        ∧ linear_shapes k c (params _ g')
        ∧ yhat _ g' = Some pred ∧ shape pred = [n; c] ∧ well_formed pred.
Proof.
  intros Hps Hx Hy HL.
  destruct (linear_forward_ok k c (params _ g) x n Hps Hx) as (pred & Hf & Hshape & Hwf).
  pose proof (cross_entropy_valid pred y n c Hshape Hy) as Hl.
  destruct (iteration_computed linear (SGD [0; 1] lr) x y L epoch g pred _ Hf Hl)
    as (Hyh & _ & _ & Hres).
  pose proof (iteration_params linear (SGD [0; 1] lr) x y L epoch g pred _ Hf Hl) as Hpar.
  destruct (iteration linear (SGD [0; 1] lr) x y L epoch g) as [r g'] eqn:Hit.
  simpl in Hyh, Hres, Hpar. exists g', pred. split_and!; try done.
  - rewrite Hres. destruct L; [lia|]. by rewrite andb_false_r.
  - rewrite Hpar. by apply iteration_keeps_linear_shapes.
Qed.

Lemma linear_training_completes k c lr x y n L start count (g : globals (SGD [0; 1] lr)) :
  linear_shapes k c (params _ g) → shape x = [n; k] → valid_labels n c y → 0 < L →
  ∃ g', for_range _ (iteration linear (SGD [0; 1] lr) x y L) start count g = (Ok tt, g')
        ∧ linear_shapes k c (params _ g')
        ∧ (0 < count →
             ∃ pred, yhat _ g' = Some pred ∧ shape pred = [n; c] ∧ well_formed pred).
Proof.
  intros Hps Hx Hy HL. induction count as [|count (g' & Hrun & Hps' & _)].
  - exists g. split_and!; [done..|lia].
  - rewrite for_range_snoc, Hrun.
    destruct (linear_iteration_completes k c lr x y n L (start + count) g' Hps' Hx Hy HL)
      as (g'' & pred & ? & ? & ? & ? & ?).
    exists g''. split_and!; [done..|]. intros _. by exists pred.
Qed.

Lemma error_rate_ok (pred : tensor) y n c :
  shape pred = [n; c] → well_formed pred → 0 < c → length y = n →
  ∃ rate, error_rate pred y = Ok rate.
Proof.
  intros Hshape Hwf Hc Hlen.
  destruct (rows_well_formed pred n c Hshape Hwf) as (rs & Hrows & Hrs & Hrow).
  assert (∃ preds, mapM argmax_row rs = Some preds) as [preds Hpreds].
  { apply mapM_is_Some, Forall_lookup. intros i r Hr. simpl.
    apply Hrow in Hr. destruct r; simpl in *; [lia|]. by eexists. }
  pose proof Hpreds as Hall. apply mapM_Some, Forall2_length in Hall.
  unfold error_rate. rewrite (argmax1_rows pred n c Hshape Hc), Hrows. simpl.
  rewrite Hpreds. simpl.
  unfold ne. replace (length preds) with (length y) by lia.
  rewrite Nat.eqb_refl. simpl. by eexists.
Qed.

(** X16. On training data of shape (n, 4) with valid labels and test data of
    shape (n', 4) with as many labels, cell 30 raises nothing and
    returns its two error rates. *)
Lemma cell30_completes x y n x' y' n' (g : globals cell30_optimizer) :
  shape x = [n; 4] → valid_labels n 3 y → shape x' = [n'; 4] → length y' = n' →
  ∃ rates, (cell30 x y x' y' g).1 = Ok rates.
Proof.
  intros Hx Hy Hx' Hy'. unfold cell30. rewrite cell_unfold.
  assert (linear_shapes 4 3 (params _ (created linear cell30_optimizer 1 g))) as Hps.
  { unfold created. pose proof (linear_init_shapes (manual_seed 1)) as Hinit.
    simpl in *. by destruct (linear_init (manual_seed 1)). }
  destruct (linear_training_completes 4 3 (lit 1 100) x y n 100 0 1001 _ Hps Hx Hy)
    as (g' & Hrun & Hps' & Hyh); [lia|].
  unfold train. unfold cell30_optimizer in *. rewrite Hrun.
  destruct Hyh as (pred & Hpred & Hshape & Hwf); [lia|].
  destruct (error_rate_ok pred y n 3 Hshape Hwf) as [tr Htr]; [lia|apply Hy|].
  destruct (linear_forward_ok 4 3 (params _ g') x' n' Hps' Hx')
    as (pred' & Hf' & Hshape' & Hwf').
  destruct (error_rate_ok pred' y' n' 3 Hshape' Hwf') as [te Hte]; [lia|done|].
  exists (tr, te).
  unfold report, mbind, py_bind, get, lift, modify. simpl. rewrite Hpred. simpl.
  rewrite Htr. simpl in *. rewrite Hf'. simpl. by rewrite Hte.
Qed.

End LinearRuns.

(** * The rest of the notebook *)

(** ** Multi-indices and elementwise operations (cells 4 to 11) *)

Section Indexing.
Context `{E : Engine}.
Implicit Types (s rs : list nat) (a b t : tensor).

Lemma numel_app s1 s2 : Shape.numel (s1 ++ s2) = Shape.numel s1 * Shape.numel s2.
Proof. induction s1 as [|d s1 IH]; simpl; [lia|]. rewrite IH. lia. Qed.

Lemma numel_reverse s : Shape.numel (reverse s) = Shape.numel s.
Proof.
  induction s as [|d s IH]; [done|].
  rewrite reverse_cons, numel_app, IH. simpl. lia.
Qed.

Lemma ravel_unravel_trailing rs k stride :
  k < Shape.numel rs →
  Shape.ravel_trailing stride rs (Shape.unravel_trailing rs k) = stride * k.
Proof.
  revert k stride. induction rs as [|d r IH]; intros k stride Hk; simpl in *.
  - lia.
  - assert (d ≠ 0) as Hd by (intros ->; simpl in Hk; lia).
    assert (k / d < Shape.numel r) as Hq.
    { apply Nat.Div0.div_lt_upper_bound. lia. }
    rewrite (IH _ _ Hq).
    pose proof (Nat.div_mod_eq k d) as Hdm.
    destruct (Nat.eqb_spec d 1) as [->|_].
    + rewrite Nat.div_1_r. lia.
    + nia.
Qed.

(** The flat position of the multi-index of a flat position is that
    position. *)
Lemma ravel_unravel s k :
  k < Shape.numel s → Shape.ravel s (Shape.unravel s k) = k.
Proof.
  intros Hk. unfold Shape.ravel, Shape.unravel. rewrite reverse_involutive.
  rewrite ravel_unravel_trailing by by rewrite numel_reverse. lia.
Qed.

Lemma broadcast_trailing_refl rs : Shape.broadcast_trailing rs rs = Some rs.
Proof.
  induction rs as [|d r IH]; [done|]. simpl. by rewrite Nat.eqb_refl, IH.
Qed.

Lemma broadcast_refl s : Shape.broadcast s s = Some s.
Proof.
  unfold Shape.broadcast. rewrite broadcast_trailing_refl. simpl.
  by rewrite reverse_involutive.
Qed.

Lemma broadcast_trailing_comm rs1 rs2 :
  Shape.broadcast_trailing rs1 rs2 = Shape.broadcast_trailing rs2 rs1.
Proof.
  revert rs2. induction rs1 as [|d1 r1 IH]; intros [|d2 r2]; simpl; try done.
  rewrite (IH r2).
  destruct (Nat.eqb_spec d1 d2) as [->|Hne].
  - by rewrite Nat.eqb_refl.
  - destruct (Nat.eqb_spec d2 d1) as [->|_]; [done|].
    destruct (Nat.eqb_spec d1 1) as [->|H1], (Nat.eqb_spec d2 1) as [->|H2]; done.
Qed.

Lemma broadcast_trailing_length rs1 rs2 rs :
  Shape.broadcast_trailing rs1 rs2 = Some rs →
  length rs = length rs1 `max` length rs2.
Proof.
  revert rs2 rs. induction rs1 as [|d1 r1 IH]; intros [|d2 r2] rs; simpl.
  - by intros [= <-].
  - by intros [= <-].
  - intros [= <-]. simpl. lia.
  - destruct (Shape.broadcast_trailing r1 r2) as [r|] eqn:Hr.
    + specialize (IH _ _ Hr).
      destruct (d1 =? d2), (d1 =? 1), (d2 =? 1); simpl; intros [= <-]; simpl; lia.
    + destruct (d1 =? d2), (d1 =? 1), (d2 =? 1); done.
Qed.

(** X6. The shape of [a + b] is the shape of [b + a]; a shape broadcasts
    with itself to itself; the result has as many dimensions as the
    longer operand; and an operation on [a] and [b] is the flipped
    operation on [b] and [a], failures included. *)
Lemma broadcasting_is_symmetric :
  (∀ s1 s2, Shape.broadcast s1 s2 = Shape.broadcast s2 s1)
  ∧ (∀ s, Shape.broadcast s s = Some s)
  ∧ (∀ s1 s2 s, Shape.broadcast s1 s2 = Some s →
       length s = length s1 `max` length s2)
  ∧ (∀ (f : R → R → R) a b,
       broadcast_op f a b = broadcast_op (λ u v, f v u) b a).
Proof.
  split_and!.
  - intros s1 s2. unfold Shape.broadcast. by rewrite broadcast_trailing_comm.
  - apply broadcast_refl.
  - intros s1 s2 s. unfold Shape.broadcast.
    destruct (Shape.broadcast_trailing _ _) as [rs|] eqn:Hrs; simpl; [|done].
    intros [= <-]. apply broadcast_trailing_length in Hrs.
    by rewrite !length_reverse in *.
  - intros f a b. unfold broadcast_op, Shape.broadcast.
    by rewrite broadcast_trailing_comm.
Qed.

Lemma fmap_seq_ext {B} (f g : nat → B) start n :
  (∀ k, start ≤ k < start + n → f k = g k) → f <$> seq start n = g <$> seq start n.
Proof.
  intros Hfg. apply list_eq. intros i. rewrite !list_lookup_fmap.
  destruct (decide (i < n)) as [Hi|Hi].
  - rewrite lookup_seq_lt by done. simpl. f_equal. apply Hfg. lia.
  - by rewrite lookup_seq_ge by lia.
Qed.

Lemma fmap_seq_zip_with (f : R → R → R) (la lb : list R) n :
  length la = n → length lb = n →
  (λ k, f (default zero (la !! k)) (default zero (lb !! k))) <$> seq 0 n = zip_with f la lb.
Proof.
  intros Ha Hb. apply list_eq. intros i. rewrite list_lookup_fmap, lookup_zip_with.
  destruct (decide (i < n)) as [Hi|Hi].
  - rewrite lookup_seq_lt by done. simpl.
    destruct (lookup_lt_is_Some_2 la i) as [u ->]; [lia|].
    destruct (lookup_lt_is_Some_2 lb i) as [v ->]; [lia|]. done.
  - rewrite lookup_seq_ge by lia. simpl.
    by rewrite (proj2 (lookup_ge_None la i)) by lia.
Qed.

Lemma broadcast_op_same_shape (f : R → R → R) a b :
  well_formed a → well_formed b → shape a = shape b →
  broadcast_op f a b = Some (Tensor (shape a) (zip_with f (data a) (data b))).
Proof.
  unfold well_formed. intros Ha Hb Hs. unfold broadcast_op.
  rewrite <- Hs, broadcast_refl. simpl. do 2 f_equal.
  rewrite <- (fmap_seq_zip_with f (data a) (data b) (Shape.numel (shape a)))
    by (done || by rewrite Hs).
  apply fmap_seq_ext. intros k Hk. unfold item.
  by rewrite ravel_unravel by lia.
Qed.

(** X1. Cell 4: on tensors of one shape, [a + b], [a - b] and [a * b] are
    "elementwise": they keep the shape, and entry [k] of the result is
    the operation on the entries [k] of [a] and [b]. *)
Lemma same_shape_operations_are_elementwise a b :
  well_formed a → well_formed b → shape a = shape b →
  tensor_add a b = Some (Tensor (shape a) (zip_with add (data a) (data b)))
  ∧ tensor_sub a b = Some (Tensor (shape a) (zip_with sub (data a) (data b)))
  ∧ tensor_mul a b = Some (Tensor (shape a) (zip_with mul (data a) (data b))).
Proof. intros Ha Hb Hs. split_and!; by apply broadcast_op_same_shape. Qed.

Lemma broadcast_with_one s : s ≠ [] → Shape.broadcast s [1] = Some s.
Proof.
  intros Hs. unfold Shape.broadcast.
  destruct (reverse s) as [|d r] eqn:Hr.
  { apply (f_equal reverse) in Hr. by rewrite reverse_involutive in Hr. }
  change (reverse [1]) with [1]. simpl. rewrite broadcast_trailing_nil_r.
  assert (Some (reverse (d :: r)) = Some s) as Hback.
  { by rewrite <- Hr, reverse_involutive. }
  destruct (Nat.eqb_spec d 1) as [->|_]; [done|]. simpl. done.
Qed.

Lemma ravel_one idx : Shape.ravel [1] idx = 0.
Proof. unfold Shape.ravel. change (reverse [1]) with [1]. by destruct (reverse idx). Qed.

Lemma broadcast_with_scalar s : Shape.broadcast s [] = Some s.
Proof.
  unfold Shape.broadcast. change (reverse []) with (@nil nat).
  rewrite broadcast_trailing_nil_r. simpl. by rewrite reverse_involutive.
Qed.

Lemma broadcast_op_single (f : R → R → R) a sb (v : R) :
  well_formed a → Shape.broadcast (shape a) sb = Some (shape a) →
  (∀ idx, Shape.ravel sb idx = 0) →
  broadcast_op f a (Tensor sb [v]) = Some (Tensor (shape a) ((λ u, f u v) <$> data a)).
Proof.
  unfold well_formed. intros Ha Hb Hzero.
  unfold broadcast_op. simpl. rewrite Hb. simpl. do 2 f_equal.
  transitivity ((λ k, f (default zero (data a !! k)) v) <$> seq 0 (Shape.numel (shape a))).
  - apply fmap_seq_ext. intros k Hk. unfold item. simpl.
    by rewrite ravel_unravel, Hzero by lia.
  - rewrite <- Ha. apply list_eq. intros i. rewrite !list_lookup_fmap.
    destruct (decide (i < length (data a))) as [Hi|Hi].
    + rewrite lookup_seq_lt by done. simpl.
      by destruct (lookup_lt_is_Some_2 (data a) i Hi) as [u ->].
    + rewrite lookup_seq_ge by lia. simpl.
      by rewrite (proj2 (lookup_ge_None (data a) i)) by lia.
Qed.

(** X7. Cells 10 and 11: a tensor with a single entry [v] is "virtually
    copied" across the other operand, so [a + [v]] is
    [a + [v, ..., v]]: every entry of [a] is combined with [v]; and a
    scalar is "implicitly broadcast to every dimension" in the same
    way. *)
Lemma one_entry_is_broadcast_to_every_entry (f : R → R → R) a (v : R) :
  well_formed a → shape a ≠ [] →
  broadcast_op f a (Tensor [1] [v]) = Some (Tensor (shape a) ((λ u, f u v) <$> data a))
  ∧ broadcast_op f a (Tensor [1] [v]) = broadcast_op f a (full (shape a) v)
  ∧ broadcast_op f a (Tensor [] [v]) = broadcast_op f a (Tensor [1] [v]).
Proof.
  intros Ha Hs.
  assert (broadcast_op f a (Tensor [1] [v])
          = Some (Tensor (shape a) ((λ u, f u v) <$> data a))) as Hone.
  { apply broadcast_op_single; [done|by apply broadcast_with_one|apply ravel_one]. }
  split; [done|]. rewrite Hone. split.
  - rewrite broadcast_op_same_shape.
    + simpl. by rewrite zip_with_replicate_r_eq by done.
    + done.
    + unfold well_formed, full. simpl. by rewrite length_replicate.
    + done.
  - apply broadcast_op_single; [done|apply broadcast_with_scalar|done].
Qed.

(** X3. Cell 6: [reshape] succeeds exactly when the element counts agree;
    it keeps the row-major data, so the entry at the multi-index of a
    flat position of the new shape is the entry of the same flat
    position of the old tensor, and reshaping back restores it. *)
Lemma reshape_keeps_the_row_major_order t s :
  (is_Some (reshape t s) ↔ Shape.numel s = length (data t))
  ∧ ∀ t', reshape t s = Some t' →
      shape t' = s
      ∧ well_formed t'
      ∧ (∀ k, k < Shape.numel s → entry t' (Shape.unravel s k) = item t k)
      ∧ (well_formed t → reshape t' (shape t) = Some t).
Proof.
  unfold reshape. destruct (Nat.eqb_spec (Shape.numel s) (length (data t))) as [Heq|Hne].
  - split; [by split; [|eexists]|]. intros t' [= <-]. split_and!; try done.
    + intros k Hk. unfold entry. simpl. by rewrite ravel_unravel.
    + unfold well_formed. intros Hwf. simpl. rewrite <- Hwf, Nat.eqb_refl. by destruct t.
  - split; [|done]. split; [by intros [? [=]]|done].
Qed.

End Indexing.

(** ** Slices and indices (cells 8, 13, 28 and 33) *)

Section SequenceFacts.
Context {A : Type}.
Implicit Types (l : list A) (i k : Z).

Lemma slice_bound_le n k : slice_bound n k ≤ n.
Proof. unfold slice_bound. destruct (Z.ltb_spec k 0); lia. Qed.

Lemma py_slice_length start stop l :
  length (py_slice start stop l)
  = slice_hi (length l) stop - slice_lo (length l) start.
Proof.
  unfold py_slice. rewrite length_take, length_drop.
  assert (slice_hi (length l) stop ≤ length l).
  { destruct stop; simpl; [apply slice_bound_le|done]. }
  lia.
Qed.

Lemma py_index_is_Some l i :
  is_Some (py_index l i) ↔ (- Z.of_nat (length l) ≤ i < Z.of_nat (length l))%Z.
Proof.
  unfold py_index. destruct (Z.ltb_spec i 0).
  - destruct (Z.leb_spec (- Z.of_nat (length l)) i).
    + rewrite lookup_lt_is_Some. lia.
    + split; [by intros [? [=]]|lia].
  - rewrite lookup_lt_is_Some. lia.
Qed.

Lemma py_index_Some l i x :
  py_index l i = Some x →
  l !! Z.to_nat (i `mod` Z.of_nat (length l)) = Some x.
Proof.
  intros Hx. assert (is_Some (py_index l i)) as Hr by by eexists.
  apply py_index_is_Some in Hr. revert Hx. unfold py_index.
  destruct (Z.ltb_spec i 0).
  - destruct (Z.leb_spec (- Z.of_nat (length l)) i); [|done].
    replace (i `mod` Z.of_nat (length l))%Z with (i + Z.of_nat (length l))%Z; [done|].
    rewrite <- (Z.mod_small (i + Z.of_nat (length l)) (Z.of_nat (length l))) by lia.
    rewrite <- (Z.mod_add i 1 (Z.of_nat (length l))) by lia. f_equal. lia.
  - by rewrite Z.mod_small by lia.
Qed.

Lemma py_slice_spec l :
  (∀ k, py_slice None (Some k) l ++ py_slice (Some k) None l = l)
  ∧ (∀ k, (0 ≤ k)%Z → length (py_slice None (Some k) l) = Z.to_nat k `min` length l)
  ∧ py_index l (-1) = last l
  ∧ py_slice None (Some (-1)%Z) l ++ option_list (py_index l (-1)) = l.
Proof.
  split_and!.
  - intros k. unfold py_slice. simpl.
    pose proof (slice_bound_le (length l) k).
    rewrite Nat.sub_0_r, drop_0.
    rewrite (take_ge (drop _ l)) by (rewrite length_drop; lia).
    apply take_drop.
  - intros k Hk. rewrite py_slice_length. simpl. unfold slice_bound.
    destruct (Z.ltb_spec k 0); lia.
  - unfold py_index. simpl. rewrite last_lookup.
    destruct l as [|x l']; [done|].
    destruct (Z.leb_spec (- Z.of_nat (length (x :: l'))) (-1)); simpl length in *; [|lia].
    f_equal. lia.
  - destruct l as [|x l'] using rev_ind; [done|].
    unfold py_slice, py_index. simpl. rewrite length_app. simpl.
    destruct (Z.leb_spec (- Z.of_nat (length l' + 1)) (-1)); [|lia].
    unfold slice_bound. simpl.
    replace (Z.to_nat (-1 + Z.of_nat (length l' + 1))) with (length l') by lia.
    rewrite Nat.sub_0_r, drop_0, take_app_length.
    rewrite lookup_app_r by lia. by rewrite Nat.sub_diag.
Qed.

(** X5. Cell 28, [indices[:100], indices[100:]]: for every integer [k],
    in or out of range, negative or not, [l[:k]] and [l[k:]] split [l];
    neither raises.  [l[:-1]] and [l[-1]] take a non-empty list apart
    into all but its last element and its last element, and on the
    empty list [l[-1]] raises while [l[:-1]] is empty. *)
Lemma slices_split_a_list l :
  (∀ k, py_slice None (Some k) l ++ py_slice (Some k) None l = l)
  ∧ (∀ k, (0 ≤ k)%Z → length (py_slice None (Some k) l) = Z.to_nat k `min` length l)
  ∧ py_index l (-1) = last l
  ∧ py_slice None (Some (-1)%Z) l ++ option_list (py_index l (-1)) = l.
Proof. apply py_slice_spec. Qed.

End SequenceFacts.

Section ArrayFacts.
Context `{E : Engine}.
Implicit Types (t : tensor) (ls rs : list (list R)) (idx : list Z).

Lemma concat_length_uniform c ls :
  Forall (λ r, length r = c) ls → length (concat ls) = length ls * c.
Proof. induction 1 as [|r ls Hr _ IH]; simpl; [done|]. rewrite length_app, IH. lia. Qed.

Lemma from_rows_well_formed c ls :
  Forall (λ r, length r = c) ls → well_formed (from_rows c ls).
Proof.
  intros Hls. unfold well_formed, from_rows. simpl.
  rewrite (concat_length_uniform c) by done. lia.
Qed.

Lemma rows_from_rows c ls :
  Forall (λ r, length r = c) ls → rows (from_rows c ls) = Some ls.
Proof.
  unfold rows, from_rows. simpl. intros Hls. f_equal.
  induction Hls as [|r ls Hr Hls IH]; [done|].
  simpl length. rewrite <- cons_seq, fmap_cons. f_equal.
  - simpl. rewrite drop_0, take_app_length'; done.
  - rewrite <- fmap_S_seq, <- list_fmap_compose. rewrite <- IH at 2.
    apply fmap_seq_ext. intros k _. simpl.
    replace (c + k * c) with (length r + k * c) by lia.
    by rewrite drop_app_add.
Qed.

Lemma rows_data t n c rs :
  shape t = [n; c] → well_formed t → rows t = Some rs → from_rows c rs = t.
Proof.
  unfold well_formed, rows, from_rows. intros Hs Hwf. rewrite Hs in *. simpl in Hwf.
  intros [= <-]. rewrite length_fmap, length_seq.
  destruct t as [s d]. simpl in *. subst s. f_equal.
  revert d Hwf. induction n as [|n IH]; intros d Hwf.
  - simpl in *. by destruct d.
  - rewrite <- cons_seq, fmap_cons. simpl concat. change (0 * c) with 0. rewrite drop_0.
    rewrite <- fmap_S_seq, <- list_fmap_compose.
    transitivity (take c d ++ drop c d); [|apply take_drop]. f_equal.
    rewrite <- (IH (drop c d)) by (rewrite length_drop; lia).
    f_equal. apply fmap_seq_ext. intros k _. simpl.
    by rewrite drop_drop.
Qed.

Lemma index_rows_spec t n c idx :
  shape t = [n; c] → well_formed t →
  (is_Some (index_rows t idx) ↔ ∀ i, i ∈ idx → (- Z.of_nat n ≤ i < Z.of_nat n)%Z)
  ∧ ∀ t', index_rows t idx = Some t' →
      shape t' = [length idx; c]
      ∧ well_formed t'
      ∧ ∀ k i, idx !! k = Some i → row t' k = row t (Z.to_nat (i `mod` Z.of_nat n)).
Proof.
  intros Hs Hwf.
  destruct (rows_well_formed t n c Hs Hwf) as (rs & Hrows & Hrs & Hrow).
  unfold index_rows. rewrite Hs, Hrows. simpl. split.
  - rewrite <- Hrs. split.
    + intros [t' Ht'] i Hi.
      destruct (mapM (py_index rs) idx) as [picked|] eqn:Hp; [|done].
      apply mapM_Some in Hp. apply list_elem_of_lookup in Hi as [k Hk].
      destruct (Forall2_lookup_l _ _ _ _ _ Hp Hk) as (r & _ & Hr).
      apply py_index_is_Some. by eexists.
    + intros Hall.
      assert (is_Some (mapM (py_index rs) idx)) as [picked ->]; [|by eexists].
      apply mapM_is_Some, Forall_forall. intros i Hi. simpl.
      by apply py_index_is_Some, Hall.
  - intros t'. destruct (mapM (py_index rs) idx) as [picked|] eqn:Hp; simpl; [|done].
    intros [= <-]. apply mapM_Some in Hp.
    assert (Forall (λ r, length r = c) picked) as Hpicked.
    { apply Forall_lookup. intros k r Hr.
      destruct (Forall2_lookup_r _ _ _ _ _ Hp Hr) as (i & _ & Hi).
      apply py_index_Some in Hi. by eapply Hrow. }
    split_and!.
    + simpl. by rewrite <- (Forall2_length _ _ _ Hp).
    + by apply from_rows_well_formed.
    + intros k i Hk. unfold row. rewrite rows_from_rows, Hrows by done. simpl.
      destruct (Forall2_lookup_l _ _ _ _ _ Hp Hk) as (r & Hr & Hi).
      rewrite Hr. apply py_index_Some in Hi. by rewrite Hrs in Hi.
Qed.

(** X8. Cells 13, 28 and 33: [t[idx]] raises exactly when some index is
    outside [-n, n) for the [n] rows of [t]; otherwise it is the matrix
    with one row per index, row [k] being row [idx[k]] of [t] (counted
    from the end when negative), repeated indices included. *)
Lemma index_rows_picks_the_rows t n c idx :
  shape t = [n; c] → well_formed t →
  (is_Some (index_rows t idx) ↔ ∀ i, i ∈ idx → (- Z.of_nat n ≤ i < Z.of_nat n)%Z)
  ∧ ∀ t', index_rows t idx = Some t' →
      shape t' = [length idx; c]
      ∧ well_formed t'
      ∧ ∀ k i, idx !! k = Some i → row t' k = row t (Z.to_nat (i `mod` Z.of_nat n)).
Proof. apply index_rows_spec. Qed.

End ArrayFacts.

(** ** The train and test splits (cell 28) *)

Section SplitFacts.
Context `{E : Engine}.
Implicit Types (t iris : tensor) (indices : list Z).

Local Arguments slice_hi : simpl never.
Local Arguments slice_lo : simpl never.

Lemma np_arange_elem n z : z ∈ np_arange n ↔ (0 ≤ z < Z.of_nat n)%Z.
Proof.
  unfold np_arange. rewrite list_elem_of_fmap. split.
  - intros (i & -> & Hi%elem_of_seq). lia.
  - intros Hz. exists (Z.to_nat z). split; [lia|]. apply elem_of_seq. lia.
Qed.

Lemma np_arange_NoDup n : NoDup (np_arange n).
Proof. apply NoDup_fmap_2; [apply Nat2Z.inj'|apply NoDup_seq]. Qed.

Lemma split_spec n indices :
  indices ≡ₚ np_arange n →
  train_split indices ++ test_split indices = indices
  ∧ NoDup (train_split indices ++ test_split indices)
  ∧ (∀ z, z ∈ train_split indices ∨ z ∈ test_split indices ↔ (0 ≤ z < Z.of_nat n)%Z)
  ∧ (∀ z, z ∈ train_split indices → z ∉ test_split indices)
  ∧ length (train_split indices) = 100 `min` n
  ∧ length (test_split indices) = n - 100.
Proof.
  intros Hperm.
  assert (train_split indices ++ test_split indices = indices) as Hsplit.
  { apply py_slice_spec. }
  assert (NoDup indices) as Hnd by (rewrite Hperm; apply np_arange_NoDup).
  assert (length indices = n) as Hlen.
  { rewrite Hperm. unfold np_arange. by rewrite length_fmap, length_seq. }
  split_and!.
  - done.
  - by rewrite Hsplit.
  - intros z. rewrite <- elem_of_app, Hsplit, Hperm. apply np_arange_elem.
  - rewrite <- Hsplit in Hnd. apply NoDup_app in Hnd as (_ & Hdisj & _). exact Hdisj.
  - unfold train_split. rewrite py_slice_length, Hlen.
    unfold slice_hi, slice_lo, slice_bound. cbn [from_option].
    destruct (Z.ltb_spec 100 0); lia.
  - unfold test_split. rewrite py_slice_length, Hlen.
    unfold slice_hi, slice_lo, slice_bound. cbn [from_option].
    destruct (Z.ltb_spec 100 0); lia.
Qed.

(** X11. Cell 28: whatever permutation of the row numbers the shuffle
    leaves, [train_split] and [test_split] partition the rows: together
    they are the shuffled indices, every row number is in exactly one of
    them, none is repeated; the first has the first 100 indices (all of
    them when there are fewer), the second the rest. *)
Lemma train_and_test_partition_the_rows n indices :
  indices ≡ₚ np_arange n →
  train_split indices ++ test_split indices = indices
  ∧ NoDup (train_split indices ++ test_split indices)
  ∧ (∀ z, z ∈ train_split indices ∨ z ∈ test_split indices ↔ (0 ≤ z < Z.of_nat n)%Z)
  ∧ (∀ z, z ∈ train_split indices → z ∉ test_split indices)
  ∧ length (train_split indices) = 100 `min` n
  ∧ length (test_split indices) = n - 100.
Proof. apply split_spec. Qed.

(** [t[:, :-1]] and [t[:, -1]] take every row of a matrix with at least
    one column apart into its features and its label. *)
Lemma features_and_labels t n c :
  shape t = [n; S c] → well_formed t →
  ∃ X Y, slice_cols None (Some (-1)%Z) t = Some X
         ∧ index_col t (-1) = Some Y
         ∧ shape X = [n; c] ∧ well_formed X
         ∧ shape Y = [n] ∧ well_formed Y
         ∧ ∀ k r, row t k = Some r →
             ∃ rx y, row X k = Some rx ∧ data Y !! k = Some y ∧ r = rx ++ [y].
Proof.
  intros Hs Hwf.
  destruct (rows_well_formed t n (S c) Hs Hwf) as (rs & Hrows & Hrs & Hrow).
  assert (slice_hi (S c) (Some (-1)%Z) - slice_lo (S c) None = c) as Hwidth.
  { unfold slice_hi, slice_lo, slice_bound. cbn [from_option].
    destruct (Z.ltb_spec (-1) 0); lia. }
  assert (Forall (λ r, length r = c) (py_slice None (Some (-1)%Z) <$> rs)) as Hxs.
  { apply Forall_fmap, Forall_lookup. intros k r Hr. simpl.
    rewrite py_slice_length, (Hrow _ _ Hr). exact Hwidth. }
  assert (∃ col, mapM (λ r, py_index r (-1)) rs = Some col) as [col Hcol].
  { apply mapM_is_Some, Forall_lookup. intros k r Hr. simpl.
    apply py_index_is_Some. rewrite (Hrow _ _ Hr). lia. }
  pose proof Hcol as Hall. apply mapM_Some in Hall.
  eexists _, _. unfold slice_cols, index_col. rewrite Hs, Hrows. simpl.
  rewrite Hcol. simpl.
  destruct (Z.leb_spec (- Z.of_nat (S c)) (-1)); [|lia].
  destruct (Z.ltb_spec (-1) (Z.of_nat (S c))); [|lia]. simpl.
  split; [done|]. split; [done|]. rewrite Hwidth. split_and!.
  - simpl. by rewrite length_fmap, Hrs.
  - by apply from_rows_well_formed.
  - done.
  - unfold well_formed. simpl. apply Forall2_length in Hall. lia.
  - intros k r Hr. unfold row in *. rewrite Hrows in Hr. simpl in Hr.
    rewrite rows_from_rows by done. simpl. rewrite list_lookup_fmap, Hr. simpl.
    destruct (Forall2_lookup_l _ _ _ _ _ Hall Hr) as (y & Hy & Hidx).
    eexists _, y. split; [done|]. split; [done|].
    destruct (py_slice_spec r) as (_ & _ & _ & Hparts).
    rewrite Hidx in Hparts. by simpl in Hparts.
Qed.

Lemma split_indices_in_range n indices z :
  indices ≡ₚ np_arange n →
  z ∈ train_split indices ∨ z ∈ test_split indices → (0 ≤ z < Z.of_nat n)%Z.
Proof. intros Hperm. by apply split_spec. Qed.

Lemma pick_and_separate iris n c idx :
  shape iris = [n; S c] → well_formed iris →
  (∀ z, z ∈ idx → (0 ≤ z < Z.of_nat n)%Z) →
  ∃ part X Y, index_rows iris idx = Some part
    ∧ slice_cols None (Some (-1)%Z) part = Some X
    ∧ index_col part (-1) = Some Y
    ∧ shape X = [length idx; c] ∧ well_formed X
    ∧ shape Y = [length idx] ∧ well_formed Y
    ∧ ∀ k z, idx !! k = Some z →
        ∃ rx y, row X k = Some rx ∧ data Y !! k = Some y
                ∧ row iris (Z.to_nat z) = Some (rx ++ [y]).
Proof.
  intros Hs Hwf Hidx.
  destruct (index_rows_spec iris n (S c) idx Hs Hwf) as [Hsome Hpart].
  destruct (proj2 Hsome) as [part Hp].
  { intros z Hz. apply Hidx in Hz. lia. }
  destruct (Hpart part Hp) as (Hps & Hpwf & Hprow).
  destruct (features_and_labels part (length idx) c Hps Hpwf)
    as (X & Y & HX & HY & ? & ? & ? & ? & Hxy).
  exists part, X, Y. split_and!; try done.
  intros k z Hk. pose proof (Hprow k z Hk) as Hr.
  assert (0 ≤ z < Z.of_nat n)%Z as Hz by (apply Hidx; by eapply list_elem_of_lookup_2).
  rewrite Z.mod_small in Hr by done.
  destruct (row part k) as [r|] eqn:Hrk.
  - destruct (Hxy k r Hrk) as (rx & y & ? & ? & ->). by exists rx, y.
  - exfalso. unfold row in Hrk.
    destruct (rows_well_formed part (length idx) (S c) Hps Hpwf) as (prs & Hprs & Hlen & _).
    rewrite Hprs in Hrk. simpl in Hrk. apply lookup_ge_None in Hrk.
    apply lookup_lt_Some in Hk. lia.
Qed.

(** X12. Cell 28 on a data matrix with [n] rows and at least one column
    returns four well-formed arrays whose row counts match pairwise:
    features and labels of the first 100 shuffled rows, and of the
    rest.  Row [k] of a split's features followed by label [k] is the
    row of the data that the split's index [k] names. *)
Lemma cell28_separates_features_and_labels (shuffle : list Z → list Z) iris n c :
  shape iris = [n; S c] → well_formed iris →
  shuffle (np_arange n) ≡ₚ np_arange n →
  ∃ d, cell28 shuffle iris = Some d
    ∧ shape (trainX d) = [100 `min` n; c] ∧ shape (trainY d) = [100 `min` n]
    ∧ shape (testX d) = [n - 100; c] ∧ shape (testY d) = [n - 100]
    ∧ well_formed (trainX d) ∧ well_formed (trainY d)
    ∧ well_formed (testX d) ∧ well_formed (testY d)
    ∧ (∀ k z, train_split (shuffle (np_arange n)) !! k = Some z →
         ∃ rx y, row (trainX d) k = Some rx ∧ data (trainY d) !! k = Some y
                 ∧ row iris (Z.to_nat z) = Some (rx ++ [y]))
    ∧ (∀ k z, test_split (shuffle (np_arange n)) !! k = Some z →
         ∃ rx y, row (testX d) k = Some rx ∧ data (testY d) !! k = Some y
                 ∧ row iris (Z.to_nat z) = Some (rx ++ [y])).
Proof.
  intros Hs Hwf Hperm.
  destruct (split_spec n _ Hperm)
    as (_ & _ & Hin & _ & Hltr & Hlte).
  destruct (pick_and_separate iris n c (train_split (shuffle (np_arange n))) Hs Hwf)
    as (tr & trX & trY & Htr & HtrX & HtrY & ? & ? & ? & ? & ?).
  { intros z Hz. apply Hin. by left. }
  destruct (pick_and_separate iris n c (test_split (shuffle (np_arange n))) Hs Hwf)
    as (te & teX & teY & Hte & HteX & HteY & ? & ? & ? & ? & ?).
  { intros z Hz. apply Hin. by right. }
  exists (Dataset trX trY teX teY). rewrite <- Hltr, <- Hlte.
  unfold cell28, len. rewrite Hs.
  rewrite Htr. simpl. rewrite HtrX. simpl. rewrite HtrY. simpl.
  rewrite Hte. simpl. rewrite HteX. simpl. rewrite HteY. simpl.
  split_and!; done.
Qed.

(** X13. A data matrix without columns has no label column: [iris[...][:, -1]]
    raises, whatever the number of rows. *)
Lemma cell28_needs_a_label_column (shuffle : list Z → list Z) iris n :
  shape iris = [n; 0] → cell28 shuffle iris = None.
Proof.
  intros Hs. unfold cell28.
  destruct (index_rows iris (train_split _)) as [tr|] eqn:Htr; simpl; [|done].
  assert (shape tr = [length (train_split (shuffle (np_arange (len iris)))); 0]) as Hts.
  { unfold index_rows in Htr. rewrite Hs in Htr.
    destruct (rows iris); simpl in Htr; [|done].
    destruct (mapM _ _) as [picked|] eqn:Hp; simpl in Htr; [|done].
    injection Htr as <-. simpl. apply mapM_Some, Forall2_length in Hp. by rewrite Hp. }
  destruct (slice_cols None (Some (-1)%Z) tr); simpl; [|done].
  unfold index_col. by rewrite Hts.
Qed.

End SplitFacts.

(** ** Gradient accumulation (cells 17 to 25) *)

Section Accumulation.
Context `{E : Engine}.
Implicit Types (ps : list Param) (gs : list tensor).

Lemma accumulate_lookup gs ps i :
  accumulate gs ps !! i
  = (λ p, match gs !! i with
          | Some g => mkParam (value p) (add_ (grad p) g)
          | None => p
          end) <$> ps !! i.
Proof. unfold accumulate. by rewrite list_lookup_imap. Qed.

Lemma accumulate_values gs ps : values (accumulate gs ps) = values ps.
Proof.
  apply list_eq. intros i. unfold values. rewrite !list_lookup_fmap, accumulate_lookup.
  destruct (ps !! i) as [p|]; [|done]. simpl. by destruct (gs !! i).
Qed.

(** X10. Cells 21 to 25: "this is additive!".  Two backward passes without
    a reset leave in the accumulator the entries it had plus both
    gradients; with the accumulators zeroed in between, the second pass
    leaves zero plus its own gradient, whatever came before.  No
    backward pass changes a value or the number of Parameters. *)
Lemma backward_adds_to_the_accumulator gs1 gs2 refs ps i p g1 g2 k a u v :
  ps !! i = Some p → gs1 !! i = Some g1 → gs2 !! i = Some g2 →
  data (grad p) !! k = Some a → data g1 !! k = Some u → data g2 !! k = Some v →
  i ∈ refs →
  (∃ p', accumulate gs2 (accumulate gs1 ps) !! i = Some p'
         ∧ data (grad p') !! k = Some (add (add a u) v))
  ∧ (∃ p', accumulate gs2 (zero_grad refs (accumulate gs1 ps)) !! i = Some p'
           ∧ data (grad p') !! k = Some (add zero v))
  ∧ values (accumulate gs2 (accumulate gs1 ps)) = values ps
  ∧ length (accumulate gs2 (accumulate gs1 ps)) = length ps.
Proof.
  intros Hp Hg1 Hg2 Ha Hu Hv Hin. split_and!.
  - rewrite !accumulate_lookup, Hp. simpl. rewrite Hg1, Hg2.
    eexists. split; [done|]. simpl.
    rewrite !lookup_zip_with, Ha. simpl. rewrite Hu. simpl. by rewrite Hv.
  - rewrite accumulate_lookup, zero_grad_lookup, accumulate_lookup, Hp. simpl.
    rewrite Hg1, Hg2, decide_True by done.
    eexists. split; [done|]. simpl.
    rewrite lookup_zip_with, list_lookup_fmap, lookup_zip_with, Ha. simpl.
    rewrite Hu. simpl. by rewrite Hv.
  - by rewrite !accumulate_values.
  - unfold accumulate. by rewrite !length_imap.
Qed.

End Accumulation.

(** ** Predictions and the error rate (cells 30 and 32) *)

Section Predictions.
Context `{E : Engine}.
Implicit Types (pred : tensor) (y : list Z) (r : list R).

Lemma argmax_from_lt best bi i r : bi < i → argmax_from best bi i r < i + length r.
Proof.
  revert best bi i. induction r as [|v r IH]; intros best bi i Hbi; simpl; [lia|].
  destruct (ltb best v).
  - specialize (IH v i (S i)). lia.
  - specialize (IH best bi (S i)). lia.
Qed.

Lemma argmax_from_greatest best bi i r (pre : list R) :
  (∀ a, ltb a a = false) →
  (∀ a b c, ltb a b = true → ltb b c = true → ltb a c = true) →
  pre !! bi = Some best → length pre = i →
  (∀ x, x ∈ pre → ltb best x = false) →
  ∃ m, (pre ++ r) !! argmax_from best bi i r = Some m
       ∧ ∀ x, x ∈ pre ++ r → ltb m x = false.
Proof.
  intros Hirr Htrans. revert best bi i pre.
  induction r as [|v r IH]; intros best bi i pre Hbest Hlen Hpre; simpl.
  - exists best. rewrite app_nil_r. done.
  - replace (pre ++ v :: r) with ((pre ++ [v]) ++ r) by by rewrite <- app_assoc.
    destruct (ltb best v) eqn:Hv.
    + apply IH.
      * rewrite lookup_app_r by lia. by rewrite Hlen, Nat.sub_diag.
      * rewrite length_app. simpl. lia.
      * intros x [Hx|Hx%list_elem_of_singleton]%elem_of_app; [|by subst].
        destruct (ltb v x) eqn:Hvx; [|done].
        pose proof (Hpre x Hx) as Hf. by rewrite (Htrans _ _ _ Hv Hvx) in Hf.
    + apply IH.
      * by apply lookup_app_l_Some.
      * rewrite length_app. simpl. lia.
      * intros x [Hx|Hx%list_elem_of_singleton]%elem_of_app; [by apply Hpre|by subst].
Qed.

(** X17. Cells 30 and 32, [yhat.argmax(1)]: on logits of shape
    (n, c) it succeeds exactly when there is at least one class; it
    then gives one prediction per row, each a class index in
    [0, numClasses), and when the engine's comparison is a strict
    order, no entry of the row is greater than the entry at the
    predicted class.  Without any class it raises, with or without
    rows. *)
Lemma predictions_are_classes pred n c :
  shape pred = [n; c] → well_formed pred →
  (is_Some (argmax1 pred) ↔ 0 < c)
  ∧ ∀ preds, argmax1 pred = Some preds →
      length preds = n
      ∧ (∀ z, z ∈ preds → (0 ≤ z < Z.of_nat c)%Z)
      ∧ ((∀ a, ltb a a = false) →
         (∀ a b d, ltb a b = true → ltb b d = true → ltb a d = true) →
         ∀ k z r, preds !! k = Some z → row pred k = Some r →
           ∃ m, r !! Z.to_nat z = Some m ∧ ∀ x, x ∈ r → ltb m x = false).
Proof.
  intros Hs Hwf.
  destruct (rows_well_formed pred n c Hs Hwf) as (rs & Hrows & Hrs & Hrow).
  destruct (decide (0 < c)) as [Hc|Hc].
  - rewrite (argmax1_rows pred n c Hs Hc). unfold row. rewrite Hrows. simpl. split.
    + split; [done|]. intros _. apply mapM_is_Some, Forall_lookup.
      intros i r Hr. simpl. pose proof (Hrow _ _ Hr) as Hlen.
      destruct r; simpl in *; [lia|by eexists].
    + intros preds Hpreds. apply mapM_Some in Hpreds. split_and!.
      * apply Forall2_length in Hpreds. lia.
      * intros z [k Hk]%list_elem_of_lookup.
        destruct (Forall2_lookup_r _ _ _ _ _ Hpreds Hk) as (r & Hr & Hz).
        apply Hrow in Hr. destruct r as [|v r]; simpl in *; [done|].
        injection Hz as <-. pose proof (argmax_from_lt v 0 1 r). lia.
      * intros Hirr Htrans k z r Hk Hr.
        destruct (Forall2_lookup_r _ _ _ _ _ Hpreds Hk) as (r' & Hr' & Hz).
        rewrite Hr in Hr'. injection Hr' as <-.
        destruct r as [|v r]; simpl in Hz; [done|]. injection Hz as <-.
        rewrite Nat2Z.id.
        destruct (argmax_from_greatest v 0 1 r [v] Hirr Htrans) as (m & Hm & Hmax);
          [done|done| |by exists m].
        intros x Hx%list_elem_of_singleton. by subst.
  - assert (c = 0) as -> by lia. unfold argmax1. rewrite Hs. split; [|done].
    split; [by intros [? ?]|lia].
Qed.

End Predictions.

Section ErrorRateFacts.
Context `{E : Engine}.
Implicit Types (pred : tensor) (y : list Z).

Lemma filter_length_none {A} (P : A → Prop) `{!∀ x, Decision (P x)} (l : list A) :
  length (filter P l) = 0 ↔ Forall (λ x, ¬ P x) l.
Proof.
  induction l as [|x l IH]; [by rewrite filter_nil|].
  rewrite filter_cons, Forall_cons. destruct (decide (P x)); simpl; [|tauto].
  split; [lia|tauto].
Qed.

Lemma filter_length_all {A} (P : A → Prop) `{!∀ x, Decision (P x)} (l : list A) :
  length (filter P l) = length l ↔ Forall P l.
Proof.
  induction l as [|x l IH]; [by rewrite filter_nil|].
  rewrite filter_cons, Forall_cons. pose proof (length_filter P l).
  destruct (decide (P x)); simpl.
  - rewrite <- IH. split; [intros [=]; done|intros [_ ->]; done].
  - split; [lia|tauto].
Qed.

Lemma fraction_extremes (k n : nat) :
  0 < n →
  ((inject_Z (Z.of_nat k) / inject_Z (Z.of_nat n) == 0)%Q ↔ k = 0)
  ∧ ((inject_Z (Z.of_nat k) / inject_Z (Z.of_nat n) == 1)%Q ↔ k = n).
Proof.
  intros Hn. destruct n as [|n]; [lia|].
  unfold Qeq, Qdiv, Qmult, Qinv, inject_Z. simpl. split; lia.
Qed.

Lemma error_rate_counts pred y n c :
  shape pred = [n; c] → well_formed pred → 0 < c → length y = n → 0 < n →
  ∃ q, error_rate pred y = Ok (Fin q) ∧ (q == mismatch_fraction pred y)%Q.
Proof.
  intros Hshape Hwf Hc Hlen Hn.
  destruct (rows_well_formed pred n c Hshape Hwf) as (rs & Hrows & Hrs & Hrow).
  assert (∃ preds, mapM argmax_row rs = Some preds) as [preds Hpreds].
  { apply mapM_is_Some, Forall_lookup. intros i r Hr. simpl.
    apply Hrow in Hr. destruct r; simpl in *; [lia|]. by eexists. }
  pose proof Hpreds as Hall. apply mapM_Some in Hall.
  assert (length preds = length y) as Hpl.
  { apply Forall2_length in Hall. lia. }
  unfold error_rate. rewrite (argmax1_rows pred n c Hshape Hc), Hrows. simpl.
  rewrite Hpreds. simpl.
  unfold ne. rewrite Hpl, Nat.eqb_refl. simpl.
  set (mask := zip_with _ preds y).
  assert (length mask = n) as Hml.
  { unfold mask. rewrite length_zip_with. lia. }
  assert (∀ i b, mask !! i = Some b → b = bool_decide (mismatch pred y (0 + i))) as Hmask.
  { intros i b Hb. unfold mask in Hb.
    apply lookup_zip_with_Some in Hb as (p & l & -> & Hp & Hl).
    destruct (Forall2_lookup_r _ _ _ _ _ Hall Hp) as (r & Hr & Hrp).
    unfold mismatch. rewrite Hrows. simpl. rewrite Hr. simpl. rewrite Hrp, Hl.
    destruct (Z.eqb_spec p l) as [->|Hne]; simpl.
    - by rewrite bool_decide_eq_false_2 by (intros ?; done).
    - rewrite bool_decide_eq_true_2; [done|]. congruence. }
  pose proof (sum_mask mask (mismatch pred y) 0 Hmask) as Hsum.
  rewrite float_mean_nonempty
    by (unfold to_float; rewrite length_fmap; lia).
  eexists. split; [done|].
  rewrite Qred_correct. unfold mismatch_fraction. rewrite Hshape.
  unfold to_float at 2. rewrite length_fmap, Hml. rewrite Hsum, Hml. reflexivity.
Qed.

(** X18. Cell 30, [classificationErrorRate]: with one label per row the
    error rate is 0 exactly when every row's arg-max class is its
    label and 1 exactly when none is; the labels need not be classes
    of the model for this. *)
Lemma error_rate_is_zero_iff_all_rows_match pred y n c :
  shape pred = [n; c] → well_formed pred → 0 < c → length y = n → 0 < n →
  ∃ q, error_rate pred y = Ok (Fin q)
       ∧ ((q == 0)%Q ↔ ∀ i, i < n → ¬ mismatch pred y i)
       ∧ ((q == 1)%Q ↔ ∀ i, i < n → mismatch pred y i).
Proof.
  intros Hshape Hwf Hc Hlen Hn.
  destruct (error_rate_counts pred y n c) as (q & Hq & Hfrac); [done..|].
  exists q. split; [done|]. rewrite Hfrac. unfold mismatch_fraction. rewrite Hshape.
  destruct (fraction_extremes
              (length (filter (mismatch pred y) (seq 0 n))) n Hn) as [-> Hone].
  rewrite Hone, filter_length_none.
  pose proof (filter_length_all (mismatch pred y) (seq 0 n)) as Hall.
  rewrite length_seq in Hall. rewrite Hall, !Forall_forall.
  split; (split; [intros H i Hi; apply H, elem_of_seq; lia
                 |intros H i Hi%elem_of_seq; apply H; lia]).
Qed.

(** X19. Cell 30, [yhat.argmax(1) != y]: a label vector of length 1 is
    broadcast, so the comparison goes through and every row is
    compared with that one label; any other length that differs from
    the number of rows raises. *)
Lemma a_single_label_is_compared_with_every_row pred n c :
  shape pred = [n; c] → well_formed pred → 0 < c →
  (∀ v, error_rate pred [v] = error_rate pred (replicate n v))
  ∧ (∀ y, error_rate pred y = Raise RuntimeError
          ↔ length y ≠ n ∧ length y ≠ 1 ∧ n ≠ 1).
Proof.
  intros Hshape Hwf Hc.
  destruct (rows_well_formed pred n c Hshape Hwf) as (rs & Hrows & Hrs & Hrow).
  assert (∃ preds, mapM argmax_row rs = Some preds) as [preds Hpreds].
  { apply mapM_is_Some, Forall_lookup. intros i r Hr. simpl.
    apply Hrow in Hr. destruct r; simpl in *; [lia|]. by eexists. }
  pose proof (length_mapM _ _ _ Hpreds) as Hpl. rewrite Hrs in Hpl.
  unfold error_rate. rewrite (argmax1_rows pred n c Hshape Hc), Hrows. simpl.
  rewrite Hpreds. simpl. split.
  - intros v. assert (ne preds [v] = ne preds (replicate n v)) as ->; [|done].
    unfold ne. rewrite Hpl, length_replicate, Nat.eqb_refl. simpl.
    assert (zip_with (λ u v0, negb (u =? v0)%Z) preds (replicate (length preds) v)
            = (λ u, negb (u =? v)%Z) <$> preds) as ->.
    { clear. induction preds as [|u preds IH]; simpl; [done|]. by rewrite IH. }
    destruct (Nat.eqb_spec (length preds) 1) as [Hone|Hone].
    + destruct preds as [|u [|??]]; simpl in *; done.
    + destruct preds as [|u [|??]]; simpl in *; done.
  - intros y. unfold ne. rewrite Hpl.
    destruct (Nat.eqb_spec (length preds) (length y)) as [Heq|Hneq]; simpl.
    + split; [done|]. intros (? & _). lia.
    + destruct preds as [|u [|??]], y as [|v [|??]]; simpl in *;
        (split; [try done; intros _; lia|try done; intros (? & ? & ?); lia]).
Qed.

End ErrorRateFacts.

(** ** Shapes through the models (cells 30, 32 and 33) *)

Section ForwardShapes.
Context `{E : Engine}.
Implicit Types (x t : tensor) (vs : list tensor).

Lemma bind_rows_length {B} (f : nat → nat → B) start n m :
  length (i ← seq start n; f i <$> seq 0 m) = n * m.
Proof.
  revert start. induction n as [|n IH]; intros start; [done|].
  simpl. rewrite length_app, length_fmap, length_seq, IH. done.
Qed.

Lemma mm_shapes a b :
  (is_Some (mm a b) ↔ ∃ n k m, shape a = [n; k] ∧ shape b = [k; m])
  ∧ ∀ t, mm a b = Some t →
      ∃ n k m, shape a = [n; k] ∧ shape b = [k; m] ∧ shape t = [n; m] ∧ well_formed t.
Proof.
  unfold mm. split.
  - split.
    + intros [t Ht]. destruct (shape a) as [|n [|k [|??]]]; try done.
      destruct (shape b) as [|k' [|m [|??]]]; try done.
      destruct (Nat.eqb_spec k k') as [->|]; [|done]. by eexists _, _, _.
    + intros (n & k & m & -> & ->). by rewrite Nat.eqb_refl.
  - intros t Ht. destruct (shape a) as [|n [|k [|??]]]; try done.
    destruct (shape b) as [|k' [|m [|??]]]; try done.
    destruct (Nat.eqb_spec k k') as [->|]; [|done]. injection Ht as <-.
    eexists _, _, _. split_and!; try done.
    unfold well_formed. simpl. rewrite bind_rows_length. lia.
Qed.

Lemma add_bias xw bias n c :
  shape xw = [n; c] → shape bias = [c] →
  ∃ t, tensor_add xw bias = Some t ∧ shape t = [n; c] ∧ well_formed t.
Proof.
  intros Hxw Hb. destruct (tensor_add xw bias) as [t|] eqn:Hadd.
  - exists t. split; [done|]. split; [|by eapply tensor_add_well_formed].
    unfold tensor_add, broadcast_op in Hadd.
    rewrite Hxw, Hb, broadcast_rows_with_vector in Hadd. simpl in Hadd.
    by injection Hadd as <-.
  - unfold tensor_add, broadcast_op in Hadd.
    by rewrite Hxw, Hb, broadcast_rows_with_vector in Hadd.
Qed.

(** X14. Cell 30, [torch.mm(x, W) + b]: the linear classifier takes exactly
    the matrices with as many columns as [W] has rows, and answers one
    row of class scores per input row. *)
Lemma linear_forward_takes_matching_columns k c ps x :
  linear_shapes k c ps →
  (is_Some (linear_forward (values ps) x) ↔ ∃ n, shape x = [n; k])
  ∧ ∀ pred, linear_forward (values ps) x = Some pred →
      ∃ n, shape x = [n; k] ∧ shape pred = [n; c] ∧ well_formed pred.
Proof.
  intros Hps.
  assert (∀ pred, linear_forward (values ps) x = Some pred →
            ∃ n, shape x = [n; k] ∧ shape pred = [n; c] ∧ well_formed pred) as Hres.
  { intros pred Hpred. pose proof Hps as (W & b & -> & HW & Hb).
    unfold linear_forward in Hpred. simpl in Hpred.
    destruct (mm x (value W)) as [xw|] eqn:Hmm; simpl in Hpred; [|done].
    apply mm_shapes in Hmm as (n & k' & m & Hx & HW' & Hxw & _).
    rewrite HW in HW'. injection HW' as <- <-.
    destruct (add_bias xw (value b) n c Hxw Hb) as (t & Ht & ? & ?).
    rewrite Ht in Hpred. injection Hpred as <-. by exists n. }
  split; [|done]. split.
  - intros [pred Hpred]. destruct (Hres pred Hpred) as (n & ? & _). by exists n.
  - intros [n Hx]. destruct (linear_forward_ok k c ps x n Hps Hx) as (pred & -> & _).
    done.
Qed.

Lemma sequential_forward_cons l ls vs x :
  sequential_forward (l :: ls) vs x = layer_forward vs l x ≫= sequential_forward ls vs.
Proof.
  unfold sequential_forward. simpl.
  destruct (layer_forward vs l x) as [t|]; simpl; [done|].
  induction ls as [|l' ls IH]; [done|]. simpl. apply IH.
Qed.

Lemma transpose_shape W r c :
  shape W = [r; c] → ∃ Wt, transpose W = Some Wt ∧ shape Wt = [c; r].
Proof. intros HW. unfold transpose. rewrite HW. by eexists. Qed.

Lemma linear_layer vs w b W bias out inn x :
  vs !! w = Some W → vs !! b = Some bias →
  shape W = [out; inn] → shape bias = [out] →
  (∀ lead, shape x = lead ++ [inn] →
     ∃ t, layer_forward vs (Linear w b) x = Some t
          ∧ shape t = lead ++ [out] ∧ well_formed t)
  ∧ ∀ t, layer_forward vs (Linear w b) x = Some t → ∃ lead, shape x = lead ++ [inn].
Proof.
  intros HW Hbias HsW Hsb. cbn [layer_forward]. rewrite HW, Hbias.
  cbn [mbind option_bind]. unfold linear_transform.
  destruct (transpose_shape W out inn HsW) as (Wt & -> & HWt).
  cbn [mbind option_bind]. split.
  - intros lead Hx. rewrite Hx, reverse_snoc, reverse_involutive.
    set (x2 := Tensor [Shape.numel lead; inn] (data x)).
    destruct (mm_shapes x2 Wt) as [[_ Hmk] Hinv].
    destruct Hmk as [xw Hxw]; [by eexists _, _, _|].
    rewrite Hxw. cbn [mbind option_bind].
    destruct (Hinv xw Hxw) as (n' & k & m & Hx' & HWt' & Hs & _).
    rewrite HWt in HWt'. injection Hx' as <- <-. injection HWt' as <-.
    destruct (add_bias xw bias (Shape.numel lead) out Hs Hsb) as (y & -> & Hy & Hwf).
    cbn [mbind option_bind]. eexists. split; [done|]. rewrite Hy. split; [done|].
    unfold well_formed in *. cbn [shape data drop]. rewrite Hwf, Hy, numel_app. done.
  - intros t Ht. destruct (reverse (shape x)) as [|k rlead] eqn:Hrev; [done|].
    destruct (mm (Tensor [Shape.numel (reverse rlead); k] (data x)) Wt)
      as [xw|] eqn:Hxw; [|done].
    destruct (proj2 (mm_shapes _ Wt) xw Hxw) as (n' & k' & m & Hx' & HWt' & _).
    rewrite HWt in HWt'. injection Hx' as _ <-. injection HWt' as <- _.
    exists (reverse rlead). by rewrite <- reverse_cons, <- Hrev, reverse_involutive.
Qed.

Lemma relu_layer vs t : layer_forward vs ReLU t = Some (relu t).
Proof. done. Qed.

Lemma relu_shape t : shape (relu t) = shape t.
Proof. done. Qed.

Lemma relu_well_formed t : well_formed t → well_formed (relu t).
Proof. unfold well_formed, relu. simpl. by rewrite length_fmap. Qed.

(** X20. Cell 32, [nn.ReLU()]: every entry of the output is zero or
    positive, the shape is kept, and applying it twice changes nothing
    more, whatever the engine's comparison does. *)
Lemma relu_clamps_once t :
  shape (relu t) = shape t
  ∧ length (data (relu t)) = length (data t)
  ∧ (∀ v, v ∈ data (relu t) → v = zero ∨ ltb zero v = true)
  ∧ relu (relu t) = relu t.
Proof.
  unfold relu. simpl. split_and!; [done|by rewrite length_fmap| |].
  - intros v (u & -> & _)%list_elem_of_fmap.
    destruct (ltb zero u) eqn:Hu; [by right|by left].
  - f_equal. rewrite <- list_fmap_compose. apply list_fmap_ext. intros _ u _. simpl.
    destruct (ltb zero u) eqn:Hu; [by rewrite Hu|]. by destruct (ltb zero zero).
Qed.

Lemma network_forward_spec vs x :
  network_shapes vs →
  (is_Some (sequential_forward cell32_layers vs x) ↔ ∃ lead, shape x = lead ++ [4])
  ∧ ∀ pred, sequential_forward cell32_layers vs x = Some pred →
      ∃ lead, shape x = lead ++ [4] ∧ shape pred = lead ++ [3] ∧ well_formed pred.
Proof.
  intros (W1 & b1 & W2 & b2 & W3 & b3 & -> & HW1 & Hb1 & HW2 & Hb2 & HW3 & Hb3).
  set (vs := [W1; b1; W2; b2; W3; b3]).
  destruct (linear_layer vs 0 1 W1 b1 16 4 x) as [Hok1 Hinv1]; [done..|].
  unfold cell32_layers. rewrite sequential_forward_cons.
  assert (∀ lead, shape x = lead ++ [4] →
            ∃ pred, layer_forward vs (Linear 0 1) x
                    ≫= sequential_forward [ReLU; Linear 2 3; ReLU; Linear 4 5] vs
                    = Some pred
                    ∧ shape pred = lead ++ [3] ∧ well_formed pred) as Hgo.
  { intros lead Hx. destruct (Hok1 lead Hx) as (t1 & -> & Ht1 & _).
    destruct (linear_layer vs 2 3 W2 b2 16 16 (relu t1)) as [Hok2 _]; [done..|].
    destruct (Hok2 lead) as (t2 & Ht2 & Hs2 & _); [by rewrite relu_shape|].
    destruct (linear_layer vs 4 5 W3 b3 3 16 (relu t2)) as [Hok3 _]; [done..|].
    destruct (Hok3 lead) as (t3 & Ht3 & Hs3 & Hwf3); [by rewrite relu_shape|].
    cbn [mbind option_bind].
    rewrite sequential_forward_cons, relu_layer. cbn [mbind option_bind].
    rewrite sequential_forward_cons, Ht2. cbn [mbind option_bind].
    rewrite sequential_forward_cons, relu_layer. cbn [mbind option_bind].
    rewrite sequential_forward_cons, Ht3. by exists t3. }
  split.
  - split.
    + intros [pred Hpred].
      destruct (layer_forward vs (Linear 0 1) x) as [t1|] eqn:Ht1; [|done].
      by apply (Hinv1 t1).
    + intros [lead Hx]. destruct (Hgo lead Hx) as (pred & -> & _). done.
  - intros pred Hpred.
    destruct (layer_forward vs (Linear 0 1) x) as [t1|] eqn:Ht1; [|done].
    destruct (Hinv1 t1 eq_refl) as [lead Hx]. exists lead. split; [done|].
    destruct (Hgo lead Hx) as (pred' & Hpred' & ? & ?).
    rewrite Hpred in Hpred'. by injection Hpred' as <-.
Qed.

(** X21. Cell 32, [model(x)]: with the Parameters of the three
    [nn.Linear] layers in place, the network takes exactly the tensors
    of rank 1 or more whose last dimension has length 4 (a matrix with
    4 columns, a single vector of 4 features, a batch of matrices);
    the answer keeps the leading dimensions and has 3 class scores in
    the last one. *)
Lemma network_forward_takes_four_features vs x :
  network_shapes vs →
  (is_Some (sequential_forward cell32_layers vs x) ↔ ∃ lead, shape x = lead ++ [4])
  ∧ ∀ pred, sequential_forward cell32_layers vs x = Some pred →
      ∃ lead, shape x = lead ++ [4] ∧ shape pred = lead ++ [3] ∧ well_formed pred.
Proof. apply network_forward_spec. Qed.

(** X22. Cell 33, [model(X[indices])]: for indices drawn from
    [0, X.shape[0]) the minibatch exists and the network answers one
    row of 3 class scores per drawn index. *)
Lemma minibatch_predictions vs X N indices :
  network_shapes vs → shape X = [N; 4] → well_formed X →
  (∀ i, i ∈ indices → (0 ≤ i < Z.of_nat N)%Z) →
  ∃ minibatch_x prediction,
    index_rows X indices = Some minibatch_x
    ∧ sequential_forward cell32_layers vs minibatch_x = Some prediction
    ∧ shape prediction = [length indices; 3]
    ∧ well_formed prediction.
Proof.
  intros Hvs HX Hwf Hidx.
  destruct (index_rows_spec X N 4 indices HX Hwf) as [Hsome Hpick].
  destruct Hsome as [_ Hsome]. destruct Hsome as [mb Hmb].
  { intros i Hi. specialize (Hidx i Hi). lia. }
  destruct (Hpick mb Hmb) as (Hs & _ & _).
  destruct (network_forward_spec vs mb Hvs) as [Hacc Hres].
  destruct Hacc as [_ Hacc].
  destruct Hacc as [pred Hpred]; [by exists [length indices]|].
  destruct (Hres pred Hpred) as (lead & Hlead & Hsp & ?).
  rewrite Hs in Hlead. change [length indices; 4] with ([length indices] ++ [4]) in Hlead.
  apply app_inj_tail in Hlead as [<- _]. by exists mb, pred.
Qed.

End ForwardShapes.

(** ** A matrix product by broadcasting (cell 14) *)

Section BroadcastProductFacts.
Context `{E : Engine}.
Implicit Types (d t : tensor).

Lemma bind_rows_flat {B} (f : nat → nat → B) n m :
  (i ← seq 0 n; f i <$> seq 0 m) = (λ k, f (k / m) (k mod m)) <$> seq 0 (n * m).
Proof.
  induction n as [|n IH]; [done|].
  rewrite seq_S, bind_app, IH. simpl. rewrite app_nil_r.
  replace (m + n * m) with (n * m + m) by lia. rewrite seq_app, fmap_app. f_equal.
  simpl. apply list_eq. intros j. rewrite !list_lookup_fmap.
  destruct (decide (j < m)) as [Hj|Hj].
  - rewrite !lookup_seq_lt by done. simpl.
    rewrite Nat.div_add_l by lia. rewrite Nat.div_small by done.
    rewrite (Nat.add_comm (n * m)), Nat.Div0.mod_add, Nat.mod_small by done.
    by rewrite Nat.add_0_r.
  - by rewrite !lookup_seq_ge by lia.
Qed.

Lemma broadcast_cube n : Shape.broadcast [n; 1; n] [n; n; 1] = Some [n; n; n].
Proof.
  destruct (decide (n = 1)) as [->|Hn]; [done|].
  unfold Shape.broadcast.
  change (reverse [n; 1; n]) with [n; 1; n]. change (reverse [n; n; 1]) with [1; n; n].
  cbn [Shape.broadcast_trailing].
  rewrite (proj2 (Nat.eqb_neq n 1)), (proj2 (Nat.eqb_neq 1 n)), !Nat.eqb_refl by done.
  done.
Qed.

Lemma unravel_cube n i j k :
  i < n → j < n → k < n →
  Shape.unravel [n; n; n] (i * (n * n) + (j * n + k)) = [i; j; k].
Proof.
  intros Hi Hj Hk. unfold Shape.unravel. simpl.
  replace (i * (n * n) + (j * n + k)) with ((i * n + j) * n + k) by lia.
  rewrite Nat.div_add_l by lia. rewrite (Nat.div_small k n) by done.
  rewrite Nat.add_0_r.
  rewrite (Nat.add_comm _ k), Nat.Div0.mod_add, (Nat.mod_small k) by done.
  rewrite Nat.div_add_l by lia. rewrite (Nat.div_small j n) by done.
  rewrite Nat.add_0_r.
  rewrite (Nat.add_comm _ j), Nat.Div0.mod_add, (Nat.mod_small j) by done.
  by rewrite (Nat.mod_small i) by done.
Qed.

Lemma ravel_cube n i j k :
  i < n → j < n → k < n →
  Shape.ravel [n; 1; n] [i; j; k] = i * n + k
  ∧ Shape.ravel [n; n; 1] [i; j; k] = i * n + j.
Proof.
  intros Hi Hj Hk. unfold Shape.ravel. simpl.
  destruct (Nat.eqb_spec n 1) as [->|Hn]; lia.
Qed.

Lemma item_transpose d dT n i j :
  shape d = [n; n] → transpose d = Some dT → i < n → j < n →
  item dT (i * n + j) = item d (j * n + i).
Proof.
  intros Hs HdT Hi Hj. unfold transpose in HdT. rewrite Hs in HdT.
  injection HdT as <-. unfold item at 1. simpl.
  rewrite bind_rows_flat, list_lookup_fmap, lookup_seq_lt by nia. simpl.
  rewrite Nat.div_add_l by lia. rewrite Nat.div_small by done.
  rewrite (Nat.add_comm _ j), Nat.Div0.mod_add, Nat.mod_small by done.
  f_equal. lia.
Qed.

Lemma foldl_ext_seq {B} (f g : B → nat → B) (b : B) start n :
  (∀ acc i, start ≤ i < start + n → f acc i = g acc i) →
  foldl f b (seq start n) = foldl g b (seq start n).
Proof.
  revert b start. induction n as [|n IH]; intros b start Hfg; [done|].
  simpl. rewrite Hfg by lia. apply IH. intros acc i Hi. apply Hfg. lia.
Qed.

(** X9. Cell 14, "Does A == B": for a square matrix [d], multiplying
    [d[:, None, :]] with [d.transpose(0, 1)[:, :, None]] under
    broadcasting and summing over the first dimension gives the same
    tensor as [torch.mm(d, d)], entry by entry, when the engine's
    multiplication is commutative. *)
Lemma broadcast_product_is_the_matrix_product d n :
  shape d = [n; n] → well_formed d →
  (∀ u v, mul u v = mul v u) →
  ∃ t, cell14_A d = Some t ∧ cell14_B d = Some t
       ∧ shape t = [n; n] ∧ well_formed t.
Proof.
  intros Hs Hwf Hcomm.
  destruct (transpose d) as [dT|] eqn:HdT; [|by unfold transpose in HdT; rewrite Hs in HdT].
  assert (shape dT = [n; n]) as HsT.
  { unfold transpose in HdT. rewrite Hs in HdT. by injection HdT as <-. }
  unfold cell14_A, cell14_B, mm. rewrite HdT, Hs, Nat.eqb_refl. simpl.
  unfold tensor_mul, broadcast_op, unsqueeze. rewrite Hs, HsT. simpl take. simpl drop.
  simpl shape. simpl app. rewrite broadcast_cube. simpl.
  eexists. split; [|split; [done|]].
  - unfold sum_dim0. simpl shape. do 2 f_equal.
    rewrite bind_rows_flat. simpl Shape.numel. rewrite Nat.mul_1_r.
    apply fmap_seq_ext. intros q Hq.
    assert (0 < n) as Hn by (destruct n; simpl in *; lia).
    assert (q / n < n) as Hj by (apply Nat.Div0.div_lt_upper_bound; lia).
    assert (q mod n < n) as Hk by (apply Nat.mod_upper_bound; lia).
    unfold dot. apply foldl_ext_seq. intros acc i Hi. f_equal.
    unfold item at 1. simpl data.
    rewrite (Nat.div_mod_eq q n) at 1.
    replace (n * (q / n) + q mod n) with (q / n * n + q mod n) by lia.
    rewrite list_lookup_fmap, lookup_seq_lt by nia. simpl.
    rewrite unravel_cube by lia.
    destruct (ravel_cube n i (q / n) (q mod n)) as [-> ->]; [lia..|].
    change (item (Tensor [n; 1; n] (data d))) with (item d).
    change (item (Tensor [n; n; 1] (data dT))) with (item dT).
    rewrite (item_transpose d dT n i (q / n)) by (done || lia).
    apply Hcomm.
  - split; [done|]. unfold well_formed. simpl. rewrite bind_rows_length. lia.
Qed.

End BroadcastProductFacts.

(** ** The matrices of cells 6 and 13 *)

Section MatrixEntries.
Context `{E : Engine}.

Lemma ravel_matrix r c i j :
  i < r → j < c → Shape.ravel [r; c] [i; j] = i * c + j.
Proof.
  intros Hi Hj. unfold Shape.ravel. simpl.
  destruct (Nat.eqb_spec c 1) as [->|Hc], (Nat.eqb_spec r 1) as [->|Hr]; lia.
Qed.

(** X2. Cells 6 and 13: [torch.eye(r, c)] has ones on the diagonal and
    zeros elsewhere, and [torch.arange(r * c).reshape((r, c))] holds
    [i * c + j] at row [i], column [j]: the numbers in reading
    order. *)
Lemma eye_and_reshaped_arange r c i j :
  i < r → j < c →
  entry (eye r c) [i; j] = (if i =? j then one else zero)
  ∧ ∃ t, reshape (arange (r * c)) [r; c] = Some t
         ∧ shape t = [r; c]
         ∧ entry t [i; j] = of_nat (i * c + j).
Proof.
  intros Hi Hj. split.
  - unfold entry, item. simpl shape. rewrite ravel_matrix by done. simpl data.
    rewrite bind_rows_flat, list_lookup_fmap, lookup_seq_lt by nia. simpl.
    rewrite Nat.div_add_l by lia. rewrite Nat.div_small by done.
    rewrite (Nat.add_comm (i * c)), Nat.Div0.mod_add, Nat.mod_small by done.
    by rewrite Nat.add_0_r.
  - unfold reshape, arange. simpl data. rewrite length_fmap, length_seq.
    assert (Shape.numel [r; c] = r * c) as -> by (simpl; lia).
    rewrite Nat.eqb_refl. eexists. split; [done|]. split; [done|].
    unfold entry, item. simpl shape. rewrite ravel_matrix by done. simpl data.
    by rewrite list_lookup_fmap, lookup_seq_lt by nia.
Qed.

End MatrixEntries.

(** ** Training the linear classifier on valid data *)

Section ValidTraining.
Context `{E : Engine}.

(** X15. Cell 30's loop, for any learning rate and any number of
    iterations: on a feature matrix with as many columns as [W] has
    rows and one valid label per row, with a positive logging period,
    no iteration raises; [W] and [b] keep their shapes, and after at
    least one iteration [yhat] holds one row of class scores per
    example. *)
Lemma training_on_valid_data_never_raises
    k c lr x y n L numIterations (g : globals (SGD [0; 1] lr)) :
  linear_shapes k c (params _ g) → shape x = [n; k] → valid_labels n c y → 0 < L →
  ∃ g', train linear (SGD [0; 1] lr) x y L numIterations g = (Ok tt, g')
        ∧ linear_shapes k c (params _ g')
        ∧ (0 < numIterations →
             ∃ pred, yhat _ g' = Some pred ∧ shape pred = [n; c] ∧ well_formed pred).
Proof. apply linear_training_completes. Qed.

End ValidTraining.

(** ** Slices of a matrix (cell 8) *)

Section MatrixSlices.
Context `{E : Engine}.
Implicit Types (t u : tensor) (rs : list (list R)).

Lemma py_slice_fmap {A B} (f : A → B) start stop (l : list A) :
  py_slice start stop (f <$> l) = f <$> py_slice start stop l.
Proof. unfold py_slice. by rewrite length_fmap, fmap_take, fmap_drop. Qed.

Lemma py_slice_Forall {A} (P : A → Prop) start stop (l : list A) :
  Forall P l → Forall P (py_slice start stop l).
Proof. intros Hl. unfold py_slice. by apply Forall_take, Forall_drop. Qed.

(** X4. Cell 8, [d[:2]], [d[:, :2]] and [d[1:3, 1:]]: a slice of the rows
    and a slice of the columns of a matrix never raise, whatever the
    bounds; they can be taken in either order, and the result has the
    sliced numbers of rows and columns. *)
Lemma row_and_column_slices_commute t n c rstart rstop cstart cstop :
  shape t = [n; c] → well_formed t →
  ∃ u, slice_rows rstart rstop t ≫= slice_cols cstart cstop = Some u
       ∧ slice_cols cstart cstop t ≫= slice_rows rstart rstop = Some u
       ∧ shape u = [slice_hi n rstop - slice_lo n rstart;
                    slice_hi c cstop - slice_lo c cstart]
       ∧ well_formed u.
Proof.
  intros Hs Hwf.
  destruct (rows_well_formed t n c Hs Hwf) as (rs & Hrows & Hrs & Hrow).
  assert (Forall (λ r, length r = c) rs) as Hall.
  { apply Forall_lookup. intros k r Hr. by eapply Hrow. }
  set (w := slice_hi c cstop - slice_lo c cstart).
  assert (Forall (λ r, length r = w) (py_slice cstart cstop <$> rs)) as Hcols.
  { apply Forall_fmap. eapply Forall_impl; [exact Hall|].
    intros r <-. simpl. apply py_slice_length. }
  exists (from_rows w (py_slice cstart cstop <$> py_slice rstart rstop rs)).
  unfold slice_rows at 1, slice_cols at 2. rewrite Hs, Hrows.
  cbn [mbind option_bind]. split_and!.
  - unfold slice_cols. cbn [from_rows shape].
    rewrite rows_from_rows by by apply py_slice_Forall. done.
  - unfold slice_rows. cbn [from_rows shape]. fold (from_rows w (py_slice cstart cstop <$> rs)).
    rewrite rows_from_rows by done. cbn [mbind option_bind].
    by rewrite py_slice_fmap.
  - unfold from_rows. cbn [shape]. by rewrite length_fmap, py_slice_length, Hrs.
  - apply from_rows_well_formed. rewrite <- py_slice_fmap. by apply py_slice_Forall.
Qed.

End MatrixSlices.

(** ** The notebook run on the fixed-point engine *)

Import Rational.

(** C10. The training error a cell reports is the error rate of the
    logits computed by the forward pass of the last iteration, on the
    Parameters as they were before that iteration's optimizer step; the
    test error is the evaluation routine applied to the final
    Parameters.  The two need not agree on the same data: on the
    fixed-point engine, cell 30 run for one iteration on the single
    example ((2, 0, 0, 0), class 0) reports a training error of 1 while
    the trained model's error rate on that example is 0. *)
Theorem training_error_is_from_the_last_forward_pass :
  (∀ (E : Engine) (m : Model) (o : Optimizer) seed L n x y x' y' (g : globals o) tr te,
     (cell m o seed L (S n) x y x' y' g).1 = Ok (tr, te) →
     ∃ before pred,
       train m o x y L n (created m o seed g) = (Ok tt, before)
       ∧ forward m (values (params o before)) x = Some pred
       ∧ error_rate pred y = Ok tr
       ∧ params o (cell m o seed L (S n) x y x' y' g).2
         = params o (train m o x y L (S n) (created m o seed g)).2
       ∧ classificationErrorRate m (params o (cell m o seed L (S n) x y x' y' g).2) x' y'
         = Ok te)
  ∧ (∃ (x : tensor) (y : list Z) (g : globals cell30_optimizer),
       (cell linear cell30_optimizer 1 100 1 x y x y g).1 = Ok (Fin 1, Fin 0)
       ∧ classificationErrorRate linear
           (params _ (cell linear cell30_optimizer 1 100 1 x y x y g).2) x y
         = Ok (Fin 0)).
Proof.
  split.
  - intros E m o seed L n x y x' y' g tr te. apply report_after_training.
  - exists (matrix 1 4 [2; 0; 0; 0]%Q), [0%Z], fresh.
    vm_compute. done.
Qed.

Lemma two_labels_valid : valid_labels 2 3 two_labels.
Proof.
  split; [done|]. intros l Hl. unfold two_labels in Hl.
  repeat (apply elem_of_cons in Hl as [->|Hl]; [lia|]). inversion Hl.
Qed.

Lemma cell30_refs_cover (ps : list Param) :
  length ps = 2 → ∀ i, i < length ps → i ∈ param_refs cell30_optimizer.
Proof.
  intros -> i Hi. simpl. destruct i as [|[|i]]; [left|right; left|lia].
Qed.

(** The first claim at the second iteration of cell 30 on two examples. *)
Lemma gradients_are_reset_in_every_iteration_witness :
  Forall (λ p, all_zero (grad p))
    (params _ (reset cell30_optimizer
                 (train linear cell30_optimizer two_rows two_labels 100 1 seeded).2))
  ∧ Forall2 (λ p p', value p' = value p
                     ∧ shape (grad p') = shape (grad p)
                     ∧ data (grad p') = replicate (length (data (grad p))) zero)
      (params _ (train linear cell30_optimizer two_rows two_labels 100 1 seeded).2)
      (params _ (reset cell30_optimizer
                   (train linear cell30_optimizer two_rows two_labels 100 1 seeded).2)).
Proof.
  refine ((λ H, conj (proj1 (proj2 H)) (proj1 (proj2 (proj2 (proj2 H)))))
            (gradients_are_reset_in_every_iteration
               linear cell30_optimizer two_rows two_labels 100 2 1 seeded
               (train linear cell30_optimizer two_rows two_labels 100 1 seeded).2
               _ _ _)).
  - lia.
  - reflexivity.
  - apply cell30_refs_cover. reflexivity.
Defined.

Lemma loss_is_cross_entropy_of_the_logits_witness :
  loss _ (train linear cell30_optimizer two_rows two_labels 100 1 seeded).2
    = Some (cross_entropy_spec first_logits two_labels).
Proof.
  refine (proj1 (loss_is_cross_entropy_of_the_logits
            linear cell30_optimizer two_rows two_labels 100 0 seeded seeded
            first_logits 2 3 _ _ _ _)).
  - reflexivity.
  - reflexivity.
  - reflexivity.
  - exact two_labels_valid.
Defined.

Lemma error_rate_is_the_mismatch_fraction_witness :
  ∃ q, classificationErrorRate linear (params _ seeded) two_rows two_labels = Ok (Fin q)
       ∧ (q == mismatch_fraction first_logits two_labels)%Q
       ∧ in_unit_interval
           (classificationErrorRate linear (params _ seeded) two_rows two_labels).
Proof.
  refine (error_rate_is_the_mismatch_fraction
            linear (params _ seeded) two_rows two_labels first_logits 2 3 _ _ _ _ _).
  - reflexivity.
  - reflexivity.
  - reflexivity.
  - exact two_labels_valid.
  - lia.
Defined.

(** C2 as stated fails on the empty dataset, which is valid: the mean
    of an empty mask is nan, not a number of [0, 1]. *)
Lemma error_rate_of_no_rows_is_nan :
  forward linear (values (params _ seeded)) no_rows = Some (matrix 0 3 [])
  ∧ well_formed (matrix 0 3 [])
  ∧ valid_labels 0 3 []
  ∧ classificationErrorRate linear (params _ seeded) no_rows [] = Ok NaN
  ∧ ¬ in_unit_interval (classificationErrorRate linear (params _ seeded) no_rows []).
Proof.
  split_and!; try reflexivity.
  - split; [done|]. intros l Hl. inversion Hl.
  - intros [].
Qed.

Lemma sgd_step_is_gradient_descent_witness :
  length (step (SGD [0; 1] (lit 1 100)) tt (params _ seeded)).2 = 2.
Proof.
  refine (proj1 (proj2 (proj1 (sgd_step_is_gradient_descent
            linear (lit 1 100) [0; 1] (params _ seeded) _)))).
  apply NoDup_cons. split; [|apply NoDup_singleton].
  intros Hin%list_elem_of_singleton. discriminate.
Defined.


(** C8 as stated fails: with one label for two rows and no iteration the
    loop returns normally; with one iteration the engine's error comes
    out of the first iteration, whose reset and forward pass have run. *)
Lemma no_validation_before_the_loop :
  length [0%Z] ≠ 2
  ∧ run linear cell30_optimizer (params _ seeded) 0%Z two_rows [0%Z] 0 100
    = (Ok tt, start cell30_optimizer (params _ seeded) 0%Z)
  ∧ (run linear cell30_optimizer (params _ seeded) 0%Z two_rows [0%Z] 1 100).1
    = Raise ValueError
  ∧ yhat _ (run linear cell30_optimizer (params _ seeded) 0%Z two_rows [0%Z] 1 100).2
    = Some first_logits.
Proof. split_and!; [done|reflexivity..]. Qed.

Lemma malformed_input_stops_the_first_iteration_witness :
  ∃ e, (run linear cell30_optimizer (params _ seeded) 0%Z two_rows [0%Z] 1 100).1 = Raise e
       ∧ params _ (run linear cell30_optimizer (params _ seeded) 0%Z two_rows [0%Z] 1 100).2
         = zero_grad [0; 1] (params _ seeded)
       ∧ values (params _ (run linear cell30_optimizer (params _ seeded) 0%Z two_rows [0%Z] 1 100).2)
         = values (params _ seeded)
       ∧ yhat _ (run linear cell30_optimizer (params _ seeded) 0%Z two_rows [0%Z] 1 100).2
         = Some first_logits
       ∧ loss _ (run linear cell30_optimizer (params _ seeded) 0%Z two_rows [0%Z] 1 100).2 = None
       ∧ stdout _ (run linear cell30_optimizer (params _ seeded) 0%Z two_rows [0%Z] 1 100).2 = []
       ∧ run linear cell30_optimizer (params _ seeded) 0%Z two_rows [0%Z] 0 100
         = (Ok tt, start cell30_optimizer (params _ seeded) 0%Z).
Proof.
  refine (malformed_input_stops_the_first_iteration
            linear cell30_optimizer (params _ seeded) 0%Z two_rows [0%Z] 1 100
            first_logits 2 3 _ _ _ _).
  - lia.
  - reflexivity.
  - reflexivity.
  - left. simpl. lia.
Defined.

(** Two runs of cell 30 for three iterations, the second one started in
    the state the first one left. *)
Lemma runs_with_one_seed_agree_witness :
  (cell linear cell30_optimizer 1 100 3 two_rows two_labels two_rows two_labels fresh).1
  = (cell linear cell30_optimizer 1 100 3 two_rows two_labels two_rows two_labels
       (cell linear cell30_optimizer 1 100 3 two_rows two_labels two_rows two_labels fresh).2).1.
Proof.
  refine (proj1 (runs_with_one_seed_agree
            linear cell30_optimizer 1 100 3 two_rows two_labels two_rows two_labels
            fresh
            (cell linear cell30_optimizer 1 100 3 two_rows two_labels two_rows two_labels fresh).2
            _)).
  lia.
Defined.

(** The epochs of the lines in the notebook's output: 100 to 1000 in
    cell 30, 500 to 5000 in cell 32. *)
Example cell30_logged_epochs :
  filter (λ k, log_due 100 k = true) (seq 0 1001)
  = [100; 200; 300; 400; 500; 600; 700; 800; 900; 1000].
Proof. vm_compute. reflexivity. Qed.

Example cell32_logged_epochs :
  filter (λ k, log_due 500 k = true) (seq 0 5001)
  = (λ k, 500 * k) <$> seq 1 10.
Proof. vm_compute. reflexivity. Qed.

(** Three iterations of cell 30 with a line at every epoch. *)
Example three_iterations_print_two_lines :
  (stdout _ (train linear cell30_optimizer two_rows two_labels 1 3 seeded).2).*1 = [1; 2].
Proof. vm_compute. reflexivity. Qed.

(** ** The rest of the notebook on small inputs *)

Lemma rational_mul_comm (u v : Q) : @mul engine u v = @mul engine v u.
Proof.
  simpl. f_equal. unfold Qmult.
  by rewrite (Z.mul_comm (Qnum u)), (Pos.mul_comm (Qden u)).
Qed.

Lemma seeded_linear_shapes : linear_shapes 4 3 (params _ seeded).
Proof. do 2 eexists. split_and!; reflexivity. Qed.

Lemma network_parameters_shapes : network_shapes Samples.network_parameters.
Proof. do 6 eexists. split_and!; reflexivity. Qed.

(** Cell 4 on [a = [1, 2, 3]] and [b = [4, 5, 6]]. *)
Lemma same_shape_operations_are_elementwise_witness :
  tensor_add Samples.vec_a Samples.vec_b
  = Some (Tensor (shape Samples.vec_a)
            (zip_with add (data Samples.vec_a) (data Samples.vec_b)))
  ∧ tensor_sub Samples.vec_a Samples.vec_b
    = Some (Tensor (shape Samples.vec_a)
              (zip_with sub (data Samples.vec_a) (data Samples.vec_b)))
  ∧ tensor_mul Samples.vec_a Samples.vec_b
    = Some (Tensor (shape Samples.vec_a)
              (zip_with mul (data Samples.vec_a) (data Samples.vec_b))).
Proof.
  refine (same_shape_operations_are_elementwise Samples.vec_a Samples.vec_b _ _ _).
  - reflexivity.
  - reflexivity.
  - reflexivity.
Defined.

(** Cell 10: [a + 10]. *)
Lemma one_entry_is_broadcast_to_every_entry_witness :
  tensor_add Samples.vec_a (Tensor [1] [10%Q])
  = tensor_add Samples.vec_a (full (shape Samples.vec_a) 10%Q).
Proof.
  refine (proj1 (proj2 (one_entry_is_broadcast_to_every_entry add Samples.vec_a 10%Q _ _))).
  - reflexivity.
  - discriminate.
Defined.

(** Cell 6: the entry at row 1, column 2 of [torch.eye(4, 4)] and of
    [torch.arange(9).reshape((3, 3))]. *)
Lemma eye_and_reshaped_arange_witness :
  entry (eye 3 3) [1; 2] = (if 1 =? 2 then one else zero)
  ∧ ∃ t, reshape (arange (3 * 3)) [3; 3] = Some t
         ∧ shape t = [3; 3]
         ∧ entry t [1; 2] = of_nat (1 * 3 + 2).
Proof.
  refine (eye_and_reshaped_arange 3 3 1 2 _ _).
  - lia.
  - lia.
Defined.

(** Cell 13: [array[[1, 3, 5]]]. *)
Lemma index_rows_picks_the_rows_witness :
  (is_Some (index_rows Samples.array [1; 3; 5]%Z)
   ↔ ∀ i, i ∈ [1; 3; 5]%Z → (- Z.of_nat 7 ≤ i < Z.of_nat 7)%Z)
  ∧ ∀ t', index_rows Samples.array [1; 3; 5]%Z = Some t' →
      shape t' = [length [1; 3; 5]%Z; 3]
      ∧ well_formed t'
      ∧ ∀ k i, [1; 3; 5]%Z !! k = Some i →
          row t' k = row Samples.array (Z.to_nat (i `mod` Z.of_nat 7)).
Proof.
  refine (index_rows_picks_the_rows Samples.array 7 3 [1; 3; 5]%Z _ _).
  - reflexivity.
  - reflexivity.
Defined.

(** Cell 28 with the indices of 150 rows in reverse order. *)
Lemma train_and_test_partition_the_rows_witness :
  length (train_split (reverse (np_arange 150))) = 100 `min` 150
  ∧ length (test_split (reverse (np_arange 150))) = 150 - 100.
Proof.
  refine (proj2 (proj2 (proj2 (proj2
            (train_and_test_partition_the_rows 150 (reverse (np_arange 150)) _))))).
  apply reverse_Permutation.
Defined.

(** Cell 28 on three rows, shuffled into reverse order. *)
Lemma cell28_separates_features_and_labels_witness :
  ∃ d, cell28 reverse Samples.iris = Some d
    ∧ shape (trainX d) = [100 `min` 3; 2] ∧ shape (trainY d) = [100 `min` 3]
    ∧ shape (testX d) = [3 - 100; 2] ∧ shape (testY d) = [3 - 100]
    ∧ well_formed (trainX d) ∧ well_formed (trainY d)
    ∧ well_formed (testX d) ∧ well_formed (testY d)
    ∧ (∀ k z, train_split (reverse (np_arange 3)) !! k = Some z →
         ∃ rx y, row (trainX d) k = Some rx ∧ data (trainY d) !! k = Some y
                 ∧ row Samples.iris (Z.to_nat z) = Some (rx ++ [y]))
    ∧ (∀ k z, test_split (reverse (np_arange 3)) !! k = Some z →
         ∃ rx y, row (testX d) k = Some rx ∧ data (testY d) !! k = Some y
                 ∧ row Samples.iris (Z.to_nat z) = Some (rx ++ [y])).
Proof.
  refine (cell28_separates_features_and_labels reverse Samples.iris 3 2 _ _ _).
  - reflexivity.
  - reflexivity.
  - apply reverse_Permutation.
Defined.

Lemma cell28_needs_a_label_column_witness :
  cell28 reverse Samples.no_columns = None.
Proof.
  refine (cell28_needs_a_label_column reverse Samples.no_columns 3 _).
  reflexivity.
Defined.

(** Cells 21 to 25 on one Parameter: gradients 2 and 3 on an
    accumulator at 0. *)
Lemma backward_adds_to_the_accumulator_witness :
  (∃ p', accumulate Samples.second_gradient
           (accumulate Samples.first_gradient Samples.one_parameter) !! 0 = Some p'
         ∧ data (grad p') !! 0 = Some (add (add 0%Q 2%Q) 3%Q))
  ∧ (∃ p', accumulate Samples.second_gradient
             (zero_grad [0] (accumulate Samples.first_gradient Samples.one_parameter)) !! 0
           = Some p'
           ∧ data (grad p') !! 0 = Some (add zero 3%Q))
  ∧ values (accumulate Samples.second_gradient
              (accumulate Samples.first_gradient Samples.one_parameter))
    = values Samples.one_parameter
  ∧ length (accumulate Samples.second_gradient
              (accumulate Samples.first_gradient Samples.one_parameter))
    = length Samples.one_parameter.
Proof.
  refine (backward_adds_to_the_accumulator
            Samples.first_gradient Samples.second_gradient [0] Samples.one_parameter 0
            (mkParam (Tensor [1] [1%Q]) (Tensor [1] [0%Q]))
            (Tensor [1] [2%Q]) (Tensor [1] [3%Q]) 0 0%Q 2%Q 3%Q _ _ _ _ _ _ _).
  - reflexivity.
  - reflexivity.
  - reflexivity.
  - reflexivity.
  - reflexivity.
  - reflexivity.
  - by left.
Defined.

(** The predictions for the two examples under the initial Parameters. *)
Lemma predictions_are_classes_witness :
  is_Some (argmax1 first_logits) ↔ 0 < 3.
Proof.
  refine (proj1 (predictions_are_classes first_logits 2 3 _ _)).
  - reflexivity.
  - reflexivity.
Defined.

Lemma error_rate_is_zero_iff_all_rows_match_witness :
  ∃ q, error_rate first_logits two_labels = Ok (Fin q)
       ∧ ((q == 0)%Q ↔ ∀ i, i < 2 → ¬ mismatch first_logits two_labels i)
       ∧ ((q == 1)%Q ↔ ∀ i, i < 2 → mismatch first_logits two_labels i).
Proof.
  refine (error_rate_is_zero_iff_all_rows_match first_logits two_labels 2 3 _ _ _ _ _).
  - reflexivity.
  - reflexivity.
  - lia.
  - reflexivity.
  - lia.
Defined.

Lemma a_single_label_is_compared_with_every_row_witness :
  (∀ v, error_rate first_logits [v] = error_rate first_logits (replicate 2 v))
  ∧ (∀ y, error_rate first_logits y = Raise RuntimeError
          ↔ length y ≠ 2 ∧ length y ≠ 1 ∧ 2 ≠ 1).
Proof.
  refine (a_single_label_is_compared_with_every_row first_logits 2 3 _ _ _).
  - reflexivity.
  - reflexivity.
  - lia.
Defined.

Lemma linear_forward_takes_matching_columns_witness :
  is_Some (linear_forward (values (params _ seeded)) two_rows)
  ↔ ∃ n, shape two_rows = [n; 4].
Proof.
  refine (proj1 (linear_forward_takes_matching_columns 4 3 (params _ seeded) two_rows _)).
  exact seeded_linear_shapes.
Defined.

Lemma network_forward_takes_four_features_witness :
  is_Some (sequential_forward cell32_layers Samples.network_parameters two_rows)
  ↔ ∃ lead, shape two_rows = lead ++ [4].
Proof.
  refine (proj1 (network_forward_takes_four_features
                   Samples.network_parameters two_rows _)).
  exact network_parameters_shapes.
Defined.

(** Cell 33 with the indices 1, 0, 1 drawn for a minibatch of three. *)
Lemma minibatch_predictions_witness :
  ∃ minibatch_x prediction,
    index_rows two_rows [1; 0; 1]%Z = Some minibatch_x
    ∧ sequential_forward cell32_layers Samples.network_parameters minibatch_x
      = Some prediction
    ∧ shape prediction = [length [1; 0; 1]%Z; 3]
    ∧ well_formed prediction.
Proof.
  refine (minibatch_predictions Samples.network_parameters two_rows 2 [1; 0; 1]%Z _ _ _ _).
  - exact network_parameters_shapes.
  - reflexivity.
  - reflexivity.
  - intros i Hi. repeat (apply elem_of_cons in Hi as [->|Hi]; [lia|]).
    by apply elem_of_nil in Hi.
Defined.

(** Cell 14 on [d = torch.arange(9).reshape((3, 3))]. *)
Lemma broadcast_product_is_the_matrix_product_witness :
  ∃ t, cell14_A Samples.d = Some t ∧ cell14_B Samples.d = Some t
       ∧ shape t = [3; 3] ∧ well_formed t.
Proof.
  refine (broadcast_product_is_the_matrix_product Samples.d 3 _ _ _).
  - reflexivity.
  - reflexivity.
  - exact rational_mul_comm.
Defined.

(** Cell 30's loop on the two examples, from the initial Parameters. *)
Lemma training_on_valid_data_never_raises_witness :
  ∃ g', train linear cell30_optimizer two_rows two_labels 100 1001 seeded = (Ok tt, g')
        ∧ linear_shapes 4 3 (params _ g')
        ∧ (0 < 1001 →
             ∃ pred, yhat _ g' = Some pred ∧ shape pred = [2; 3] ∧ well_formed pred).
Proof.
  refine (training_on_valid_data_never_raises
            4 3 (lit 1 100) two_rows two_labels 2 100 1001 seeded _ _ _ _).
  - exact seeded_linear_shapes.
  - reflexivity.
  - exact two_labels_valid.
  - lia.
Defined.

(** Cell 30 on the two examples, with an empty test split. *)
Lemma cell30_completes_witness :
  ∃ rates, (cell30 two_rows two_labels no_rows [] fresh).1 = Ok rates.
Proof.
  refine (cell30_completes two_rows two_labels 2 no_rows [] 0 fresh _ _ _ _).
  - reflexivity.
  - exact two_labels_valid.
  - reflexivity.
  - reflexivity.
Defined.

(** Cell 8: [d[1:3, 1:]]. *)
Lemma row_and_column_slices_commute_witness :
  ∃ u, slice_rows (Some 1%Z) (Some 3%Z) Samples.d ≫= slice_cols (Some 1%Z) None = Some u
       ∧ slice_cols (Some 1%Z) None Samples.d ≫= slice_rows (Some 1%Z) (Some 3%Z) = Some u
       ∧ shape u = [slice_hi 3 (Some 3%Z) - slice_lo 3 (Some 1%Z);
                    slice_hi 3 None - slice_lo 3 (Some 1%Z)]
       ∧ well_formed u.
Proof.
  refine (row_and_column_slices_commute Samples.d 3 3 (Some 1%Z) (Some 3%Z) (Some 1%Z) None
            _ _).
  - reflexivity.
  - reflexivity.
Defined.
